(** * NBT_Core: the doubly-linked list and the NBT error registry

    A shallow embedding of [carnaval/nbt/NBT_Core.py].

    Python objects have identity and are mutated in place, so the nodes of
    a [dLinkedList] live in a store indexed by object identity, and the
    methods of the class are written in a small state-and-failure monad
    over that store.  A reference is either [None] or the identity of an
    object, exactly as a Python variable holding a node or [None]. *)

From stdpp Require Import gmap strings list fin_maps pretty.

Open Scope string_scope.

(** ** The store *)

(** Object identities. *)
Definition loc := positive.

(** A Python value that is either [None] or a node object. *)
Definition ref := option loc.

Section Payload.

(** The type of the payloads kept in [Node.Data]. *)
Context {D : Type}.

(** [dLinkedList.Node]: the three instance attributes. *)
Record Node := mkNode {
  Next : ref;
  Prev : ref;
  Data : D
}.

(** [dLinkedList]: the two instance attributes. *)
Record dLinkedList := mkList {
  Head : ref;
  Tail : ref
}.

(** The node objects that exist, and the list object [self]. *)
Record Store := mkStore {
  objs : gmap loc Node;
  self : dLinkedList
}.

(** ** The monad

    [None] stands for a run that does not deliver: an [AttributeError]
    raised by an attribute access on [None], or (for the generator loop)
    the fuel running out. *)

Definition M (A : Type) : Type := Store -> option (A * Store).

Definition ret {A} (a : A) : M A := fun s => Some (a, s).

Definition bind {A B} (c : M A) (k : A -> M B) : M B :=
  fun s => match c s with
           | Some (a, s') => k a s'
           | None => None
           end.

Definition raise {A} : M A := fun _ => None.

Notation "x <~ c ;; k" := (bind c (fun x => k))
  (at level 100, c at next level, right associativity).
Notation "c ;;; k" := (bind c (fun _ => k))
  (at level 100, right associativity).

(** Truth value of a reference: a node object defines neither [__len__]
    nor [__nonzero__], so it is true; [None] is false. *)
Definition truthy (r : ref) : bool :=
  match r with Some _ => true | None => false end.

(** [r is None] *)
Definition is_none (r : ref) : bool :=
  match r with Some _ => false | None => true end.

(** Reading the object behind a reference; [None] has no attributes. *)
Definition deref (r : ref) : M (loc * Node) :=
  fun s => match r with
           | None => None
           | Some p => match objs s !! p with
                       | Some nd => Some ((p, nd), s)
                       | None => None
                       end
           end.

Definition store_node (p : loc) (nd : Node) : M unit :=
  fun s => Some (tt, mkStore (<[p := nd]> (objs s)) (self s)).

(** [r.Next], [r.Prev], [r.Data] *)
Definition get_Next (r : ref) : M ref := o <~ deref r ;; ret (Next o.2).
Definition get_Prev (r : ref) : M ref := o <~ deref r ;; ret (Prev o.2).
Definition get_Data (r : ref) : M D := o <~ deref r ;; ret (Data o.2).

(** [r.Next = v], [r.Prev = v] *)
Definition set_Next (r : ref) (v : ref) : M unit :=
  o <~ deref r ;; store_node o.1 (mkNode v (Prev o.2) (Data o.2)).
Definition set_Prev (r : ref) (v : ref) : M unit :=
  o <~ deref r ;; store_node o.1 (mkNode (Next o.2) v (Data o.2)).

(** [self.Head], [self.Tail] and the assignments to them *)
Definition get_Head : M ref := fun s => Some (Head (self s), s).
Definition get_Tail : M ref := fun s => Some (Tail (self s), s).
Definition set_Head (v : ref) : M unit :=
  fun s => Some (tt, mkStore (objs s) (mkList v (Tail (self s)))).
Definition set_Tail (v : ref) : M unit :=
  fun s => Some (tt, mkStore (objs s) (mkList (Head (self s)) v)).

(** ** The class *)

(** [Node.__init__]: a new object, both links [None]. *)
Definition Node_init (d : D) : M ref :=
  fun s => let p := fresh (dom (objs s)) in
           Some (Some p, mkStore (<[p := mkNode None None d]> (objs s)) (self s)).

(** [dLinkedList.__init__] *)
Definition dLinkedList_init : dLinkedList := mkList None None.

(** The store right after [lst = dLinkedList()], no node created yet. *)
Definition empty_store : Store := mkStore ∅ dLinkedList_init.

(** [dLinkedList.insert] *)
Definition insert (newNode : ref) (after : ref) : M unit :=
  (if truthy after then
     v <~ get_Next after ;;
     set_Next newNode v ;;;
     set_Next after newNode
   else
     v <~ get_Head ;;
     set_Next newNode v ;;;
     set_Head newNode) ;;;
  set_Prev newNode after ;;;
  n <~ get_Next newNode ;;
  if truthy n then
    q <~ get_Next newNode ;;
    set_Prev q newNode
  else
    set_Tail newNode.

(** [dLinkedList.remove] *)
Definition remove (oldNode : ref) : M unit :=
  p <~ get_Prev oldNode ;;
  (if is_none p then
     v <~ get_Next oldNode ;;
     set_Head v
   else
     v <~ get_Next oldNode ;;
     q <~ get_Prev oldNode ;;
     set_Next q v) ;;;
  n <~ get_Next oldNode ;;
  if is_none n then
    v <~ get_Prev oldNode ;;
    set_Tail v
  else
    v <~ get_Prev oldNode ;;
    q <~ get_Next oldNode ;;
    set_Prev q v.

(** The loop of [dLinkedList.elements], the yielded values collected in
    order.  The [while] loop has no bound of its own, so the model takes
    fuel: one unit per test of the loop condition. *)
Fixpoint elements_loop (fuel : nat) (n : ref) : M (list D) :=
  match fuel with
  | O => raise
  | S fuel' =>
      if is_none n then ret []
      else
        d <~ get_Data n ;;
        n' <~ get_Next n ;;
        ds <~ elements_loop fuel' n' ;;
        ret (d :: ds)
  end.

(** [dLinkedList.elements] *)
Definition elements (fuel : nat) : M (list D) :=
  n <~ get_Head ;; elements_loop fuel n.

End Payload.

Arguments Node : clear implicits.
Arguments dLinkedList : clear implicits.
Arguments Store : clear implicits.
Arguments M : clear implicits.

Notation "x <~ c ;; k" := (bind c (fun x => k))
  (at level 100, c at next level, right associativity).
Notation "c ;;; k" := (bind c (fun _ => k))
  (at level 100, right associativity).

(** ** Walking the list backwards

    Not a method of the class: the walk that follows [Prev] from [Tail],
    written after [elements], for the statement that the backward reading
    is the reverse of the forward one. *)

Section Backwards.
Context {D : Type}.

Fixpoint backwards_loop (fuel : nat) (n : ref) : M D (list D) :=
  match fuel with
  | O => raise
  | S fuel' =>
      if is_none n then ret []
      else
        d <~ get_Data n ;;
        n' <~ get_Prev n ;;
        ds <~ backwards_loop fuel' n' ;;
        ret (d :: ds)
  end.

Definition backwards (fuel : nat) : M D (list D) :=
  n <~ get_Tail ;; backwards_loop fuel n.

(** The payloads met when stepping along [Next] from node [a] until node
    [b] is reached. *)
Inductive next_path (h : gmap loc (Node D)) : loc -> loc -> list D -> Prop :=
  | next_path_stop a nd :
      h !! a = Some nd -> Next nd = None -> next_path h a a [Data nd]
  | next_path_step a b c nd ds :
      h !! a = Some nd -> Next nd = Some c -> next_path h c b ds ->
      next_path h a b (Data nd :: ds).

(** The payloads from [Head] to [Tail] along [Next]; none when the list
    has neither. *)
Definition head_to_tail (s : Store D) (ds : list D) : Prop :=
  match Head (self s), Tail (self s) with
  | Some a, Some b => next_path (objs s) a b ds
  | None, None => ds = []
  | _, _ => False
  end.

End Backwards.

(** ** Well-formed lists

    [dll s xs]: in store [s] the list object holds exactly the nodes [xs],
    in this order. *)

Section Shape.
Context {D : Type}.

Definition prev_at (xs : list loc) (i : nat) : ref :=
  match i with
  | O => None
  | S j => xs !! j
  end.

(** [xs] with [x] put in at position [k]. *)
Definition insert_at (k : nat) (x : loc) (xs : list loc) : list loc :=
  take k xs ++ x :: drop k xs.

Definition linked (h : gmap loc (Node D)) (xs : list loc) : Prop :=
  forall i x, xs !! i = Some x ->
    exists nd, h !! x = Some nd /\ Next nd = xs !! S i /\ Prev nd = prev_at xs i.

Record dll (s : Store D) (xs : list loc) : Prop := mk_dll {
  dll_nodup : NoDup xs;
  dll_head : Head (self s) = head xs;
  dll_tail : Tail (self s) = last xs;
  dll_links : linked (objs s) xs
}.

(** The same, as a test that can be run. *)
Definition node_check (h : gmap loc (Node D)) (xs : list loc) (i : nat) : bool :=
  match xs !! i with
  | None => true
  | Some x =>
      match h !! x with
      | None => false
      | Some nd =>
          bool_decide (Next nd = xs !! S i) && bool_decide (Prev nd = prev_at xs i)
      end
  end.

Definition dll_check (s : Store D) (xs : list loc) : bool :=
  bool_decide (NoDup xs)
  && bool_decide (Head (self s) = head xs)
  && bool_decide (Tail (self s) = last xs)
  && forallb (node_check (objs s) xs) (seq 0 (length xs)).

(** The payloads of the nodes [xs], in order. *)
Definition payloads (h : gmap loc (Node D)) (xs : list loc) : list D :=
  omap (fun x => Data <$> h !! x) xs.

(** Every node that exists in [s] exists in [s'] with the same payload. *)
Definition same_payloads (s s' : Store D) : Prop :=
  forall p nd, objs s !! p = Some nd ->
    exists nd', objs s' !! p = Some nd' /\ Data nd' = Data nd.

(** Node [x] has both links [None]. *)
Definition links_cleared (s : Store D) (x : loc) : Prop :=
  exists nd, objs s !! x = Some nd /\ Next nd = None /\ Prev nd = None.

(** ** Histories

    The stores a program can reach from [lst = dLinkedList()] by creating
    nodes and by valid calls of [insert] and [remove].  The second index
    is the set of nodes inserted and not removed since: a call is valid
    when [newNode] is an existing node outside that set and [after] is
    [None] or a node inside it, and when [oldNode] is inside it. *)
Inductive reachable : Store D -> gset loc -> Prop :=
  | reach_empty : reachable empty_store ∅
  | reach_node s m d r s' :
      reachable s m ->
      Node_init d s = Some (r, s') ->
      reachable s' m
  | reach_insert s m x after s' :
      reachable s m ->
      x ∈ dom (objs s) -> x ∉ m ->
      (forall n, after = Some n -> n ∈ m) ->
      insert (Some x) after s = Some (tt, s') ->
      reachable s' ({[x]} ∪ m)
  | reach_remove s m x s' :
      reachable s m ->
      x ∈ m ->
      remove (Some x) s = Some (tt, s') ->
      reachable s' (m ∖ {[x]}).

(** The same with [insert] calls only. *)
Inductive reachable_by_inserts : Store D -> gset loc -> Prop :=
  | reachi_empty : reachable_by_inserts empty_store ∅
  | reachi_node s m d r s' :
      reachable_by_inserts s m ->
      Node_init d s = Some (r, s') ->
      reachable_by_inserts s' m
  | reachi_insert s m x after s' :
      reachable_by_inserts s m ->
      x ∈ dom (objs s) -> x ∉ m ->
      (forall n, after = Some n -> n ∈ m) ->
      insert (Some x) after s = Some (tt, s') ->
      reachable_by_inserts s' ({[x]} ∪ m).

End Shape.

(** ** NBTerror

    The class body of [NBTerror] is the dictionary alone; everything else
    is inherited from [CodedError]. *)

(** [NBTerror.error_dict] *)
Definition error_dict : gmap Z string :=
  list_to_map
    [ (1000%Z, "Warning");
      (1001%Z, "NBT Syntax Error");
      (1002%Z, "NBT Semantic Error");
      (1003%Z, "Label String Pointer");
      (1004%Z, "No Label String Pointer");
      (1005%Z, "Malformed Message") ].

(** The failure of a lookup of an unregistered code. *)
Inductive exn := UndefinedCode (code : Z).

(** Modelled from the spec: [CodedError] of [common/ErrorCodeExceptions.py],
    the base class of [NBTerror], whose source is not part of this unit.
    [describe] returns the label of a registered code and fails with the
    undefined-code error otherwise. *)
Definition describe (dict : gmap Z string) (code : Z) : exn + string :=
  match dict !! code with
  | Some label => inr label
  | None => inl (UndefinedCode code)
  end.

(** Modelled from the spec: [CodedError] is missing; [range] is the
    inclusive minimum and maximum of the registered codes (no range for an
    empty registry). *)
Definition range (dict : gmap Z string) : option (Z * Z) :=
  match (map_to_list dict).*1 with
  | [] => None
  | c :: cs => Some (foldr Z.min c cs, foldr Z.max c cs)
  end.

(** Modelled from the spec: [CodedError] is missing; an error value is a
    code with an optional detail string. *)
Record CodedError := mkCodedError {
  errCode : Z;
  message : option string
}.

(** Modelled from the spec: [CodedError] is missing; construction from a
    code and an optional detail.  The doctest of [NBTerror] shows that an
    unregistered code is refused. *)
Definition new_error (dict : gmap Z string) (code : Z) (detail : option string)
  : exn + CodedError :=
  match dict !! code with
  | Some _ => inr (mkCodedError code detail)
  | None => inl (UndefinedCode code)
  end.

(** Modelled from the spec: [CodedError] is missing; the textual
    representation ["<code>: <label>; <detail>."], the detail part left
    out when no detail was given. *)
Definition render (dict : gmap Z string) (e : CodedError) : exn + string :=
  match describe dict (errCode e) with
  | inl err => inl err
  | inr label =>
      inr (pretty (errCode e) +:+ ": " +:+ label
           +:+ match message e with
               | Some d => "; " +:+ d
               | None => EmptyString
               end
           +:+ ".")
  end.

(** Construction followed by rendering, as in [print NBTerror( c, s )]. *)
Definition print_error (dict : gmap Z string) (code : Z) (detail : option string)
  : exn + string :=
  match new_error dict code detail with
  | inl err => inl err
  | inr e => render dict e
  end.

(** ** The scenario of the specification

    Five nodes inserted at the head, a reading; the head and then the tail
    removed, a reading; the node behind the head removed (its payload is
    returned too), a reading.  Every reading gets the same fuel. *)

Definition scenario (fuel : nat)
  : M string (list string * list string * string * list string) :=
  a <~ Node_init "a" ;; insert a None ;;;
  b <~ Node_init "b" ;; insert b None ;;;
  c <~ Node_init "c" ;; insert c None ;;;
  d <~ Node_init "d" ;; insert d None ;;;
  e <~ Node_init "e" ;; insert e None ;;;
  l1 <~ elements fuel ;;
  h <~ get_Head ;; remove h ;;;
  t <~ get_Tail ;; remove t ;;;
  l2 <~ elements fuel ;;
  h <~ get_Head ;; m <~ get_Next h ;;
  c' <~ get_Data m ;;
  remove m ;;;
  l3 <~ elements fuel ;;
  ret (l1, l2, c', l3).

(** A computation that leaves every payload as it is. *)
Definition keeps_payloads {D A : Type} (c : M D A) : Prop :=
  forall s a s', c s = Some (a, s') -> same_payloads s s'.

(** ** Sample stores *)

(** One node ["a"], inserted. *)
Definition store_a : Store string :=
  mkStore (<[1%positive := mkNode None None "a"]> ∅)
          (mkList (Some 1%positive) (Some 1%positive)).

(** The list ["b", "a"] (nodes 2 and 1) and a node ["c"] (node 3) that
    has been created and not inserted. *)
Definition store_ba : Store string :=
  mkStore
    (<[1%positive := mkNode None (Some 2%positive) "a"]>
       (<[2%positive := mkNode (Some 1%positive) None "b"]>
          (<[3%positive := mkNode None None "c"]> ∅)))
    (mkList (Some 2%positive) (Some 1%positive)).

(** [store_ba] after [remove] of its head, node 2. *)
Definition store_ba_less_b : Store string :=
  mkStore
    (<[1%positive := mkNode None None "a"]>
       (<[2%positive := mkNode (Some 1%positive) None "b"]>
          (<[3%positive := mkNode None None "c"]> ∅)))
    (mkList (Some 1%positive) (Some 1%positive)).

(** ** Taking the first values of the generator

    [elements] is a generator: a consumer that asks for [k] values makes
    the loop body run at most [k] times and then leaves the generator
    suspended.  [elements_take k] is that run, from the node [n] on. *)

Section Lazy.
Context {D : Type}.

Fixpoint elements_take_loop (k : nat) (n : ref) : M D (list D) :=
  match k with
  | O => ret []
  | S k' =>
      if is_none n then ret []
      else
        d <~ get_Data n ;;
        n' <~ get_Next n ;;
        ds <~ elements_take_loop k' n' ;;
        ret (d :: ds)
  end.

Definition elements_take (k : nat) : M D (list D) :=
  n <~ get_Head ;; elements_take_loop k n.

(** Nodes [xs !! 0] to [xs !! i] of store [s] form a ring along [Next]:
    the [Next] of each of them is one of them. *)
Definition ring (s : Store D) (xs : list loc) (i : nat) : Prop :=
  forall j, j <= i ->
    exists y nd j', xs !! j = Some y /\ objs s !! y = Some nd /\
                    j' <= i /\ Next nd = xs !! j'.

End Lazy.

(** * Proofs *)

(** ** Running the methods on a known store *)

Section Primitives.
Context {D : Type}.
Implicit Types (s : Store D) (h : gmap loc (Node D)) (x y : loc) (nd : Node D).

Lemma bind_eq {A B} (c : M D A) (k : A -> M D B) s a s' :
  c s = Some (a, s') -> bind c k s = k a s'.
Proof. unfold bind. by intros ->. Qed.

Lemma bind_assoc {A B C} (c : M D A) (k : A -> M D B) (k' : B -> M D C) s :
  bind (bind c k) k' s = bind c (fun a => bind (k a) k') s.
Proof. unfold bind. by destruct (c s) as [[a s']|]. Qed.

Lemma deref_eq s x nd :
  objs s !! x = Some nd -> deref (Some x) s = Some ((x, nd), s).
Proof. unfold deref. by intros ->. Qed.

Lemma get_Next_eq s x nd :
  objs s !! x = Some nd -> get_Next (Some x) s = Some (Next nd, s).
Proof. intros H. unfold get_Next. by rewrite (bind_eq _ _ _ _ _ (deref_eq _ _ _ H)). Qed.

Lemma get_Prev_eq s x nd :
  objs s !! x = Some nd -> get_Prev (Some x) s = Some (Prev nd, s).
Proof. intros H. unfold get_Prev. by rewrite (bind_eq _ _ _ _ _ (deref_eq _ _ _ H)). Qed.

Lemma get_Data_eq s x nd :
  objs s !! x = Some nd -> get_Data (Some x) s = Some (Data nd, s).
Proof. intros H. unfold get_Data. by rewrite (bind_eq _ _ _ _ _ (deref_eq _ _ _ H)). Qed.

Lemma set_Next_eq s x nd v :
  objs s !! x = Some nd ->
  set_Next (Some x) v s
  = Some (tt, mkStore (<[x := mkNode v (Prev nd) (Data nd)]> (objs s)) (self s)).
Proof. intros H. unfold set_Next. by rewrite (bind_eq _ _ _ _ _ (deref_eq _ _ _ H)). Qed.

Lemma set_Prev_eq s x nd v :
  objs s !! x = Some nd ->
  set_Prev (Some x) v s
  = Some (tt, mkStore (<[x := mkNode (Next nd) v (Data nd)]> (objs s)) (self s)).
Proof. intros H. unfold set_Prev. by rewrite (bind_eq _ _ _ _ _ (deref_eq _ _ _ H)). Qed.

Lemma get_Head_eq s : get_Head s = Some (Head (self s), s).
Proof. reflexivity. Qed.

Lemma get_Tail_eq s : get_Tail s = Some (Tail (self s), s).
Proof. reflexivity. Qed.

Lemma set_Head_eq s v :
  set_Head v s = Some (tt, mkStore (objs s) (mkList v (Tail (self s)))).
Proof. reflexivity. Qed.

Lemma set_Tail_eq s v :
  set_Tail v s = Some (tt, mkStore (objs s) (mkList (Head (self s)) v)).
Proof. reflexivity. Qed.

End Primitives.

(** The node found behind a reference after some attribute writes. *)
Ltac find_node :=
  simpl;
  repeat first [ rewrite lookup_insert_eq
               | rewrite lookup_insert_ne by congruence ];
  first [ eassumption | reflexivity ].

(** A lookup in the store a method body leaves behind. *)
Ltac after_writes :=
  intros; simplify_eq/=;
  repeat first [ rewrite lookup_insert_eq
               | rewrite lookup_insert_ne by congruence ];
  first [ done | congruence ].

(** One attribute access or assignment of a method body. *)
Ltac step :=
  repeat rewrite bind_assoc;
  first
    [ erewrite bind_eq by (apply get_Head_eq)
    | erewrite bind_eq by (apply get_Tail_eq)
    | erewrite bind_eq by (apply set_Head_eq)
    | erewrite bind_eq by (apply set_Tail_eq)
    | erewrite bind_eq by (apply get_Next_eq; find_node)
    | erewrite bind_eq by (apply get_Prev_eq; find_node)
    | erewrite bind_eq by (apply get_Data_eq; find_node)
    | erewrite bind_eq by (apply set_Next_eq; find_node)
    | erewrite bind_eq by (apply set_Prev_eq; find_node)
    | erewrite set_Prev_eq by find_node
    | erewrite set_Next_eq by find_node
    | rewrite set_Head_eq
    | rewrite set_Tail_eq ];
  simpl.

Section Exec.
Context {D : Type}.
Implicit Types (s : Store D) (h : gmap loc (Node D)) (x y : loc) (nd : Node D).

Lemma insert_exec s x nx after succ :
  objs s !! x = Some nx ->
  (after = None -> succ = Head (self s)) ->
  (forall a, after = Some a ->
     a <> x /\ exists na, objs s !! a = Some na /\ succ = Next na) ->
  (forall c, succ = Some c ->
     c <> x /\ Some c <> after /\ is_Some (objs s !! c)) ->
  exists s',
    insert (Some x) after s = Some (tt, s') /\
    objs s' !! x = Some (mkNode succ after (Data nx)) /\
    (forall a na, after = Some a -> objs s !! a = Some na ->
       objs s' !! a = Some (mkNode (Some x) (Prev na) (Data na))) /\
    (forall c nc, succ = Some c -> objs s !! c = Some nc ->
       objs s' !! c = Some (mkNode (Next nc) (Some x) (Data nc))) /\
    (forall y, y <> x -> Some y <> after -> Some y <> succ ->
       objs s' !! y = objs s !! y) /\
    Head (self s') = (if truthy after then Head (self s) else Some x) /\
    Tail (self s') = (if truthy succ then Tail (self s) else Some x).
Proof.
    intros Hx Hhead Hafter Hsucc.
  destruct after as [a|].
  - destruct (Hafter a eq_refl) as (Hax & na & Ha & ->).
    destruct (Next na) as [c|] eqn:Hc.
    + destruct (Hsucc c eq_refl) as (Hcx & Hca & [nc Hnc]).
      assert (c <> a) by congruence.
      unfold insert; simpl. repeat (step; rewrite ?Hc; simpl).
      eexists; split; [reflexivity|]; simpl.
      repeat split; after_writes.
    + unfold insert; simpl. repeat (step; rewrite ?Hc; simpl).
      eexists; split; [reflexivity|]; simpl.
      repeat split; after_writes.
  - rewrite (Hhead eq_refl) in *.
    destruct (Head (self s)) as [c|] eqn:Hc.
    + destruct (Hsucc c eq_refl) as (Hcx & _ & [nc Hnc]).
      unfold insert; simpl. repeat (step; rewrite ?Hc; simpl).
      eexists; split; [reflexivity|]; simpl.
      repeat split; after_writes.
    + unfold insert; simpl. repeat (step; rewrite ?Hc; simpl).
      eexists; split; [reflexivity|]; simpl.
      repeat split; after_writes.
Qed.

Lemma remove_exec s x nx :
  objs s !! x = Some nx ->
  (forall q, Prev nx = Some q -> q <> x /\ is_Some (objs s !! q)) ->
  (forall q, Next nx = Some q ->
     q <> x /\ Some q <> Prev nx /\ is_Some (objs s !! q)) ->
  exists s',
    remove (Some x) s = Some (tt, s') /\
    objs s' !! x = Some nx /\
    (forall q nq, Prev nx = Some q -> objs s !! q = Some nq ->
       objs s' !! q = Some (mkNode (Next nx) (Prev nq) (Data nq))) /\
    (forall q nq, Next nx = Some q -> objs s !! q = Some nq ->
       objs s' !! q = Some (mkNode (Next nq) (Prev nx) (Data nq))) /\
    (forall y, y <> x -> Some y <> Prev nx -> Some y <> Next nx ->
       objs s' !! y = objs s !! y) /\
    Head (self s') = (if is_none (Prev nx) then Next nx else Head (self s)) /\
    Tail (self s') = (if is_none (Next nx) then Prev nx else Tail (self s)).
Proof.
  intros Hx Hp Hn.
  destruct (Prev nx) as [p|] eqn:Ep; destruct (Next nx) as [n|] eqn:En.
  - destruct (Hp p eq_refl) as (Hpx & [np Hnp]).
    destruct (Hn n eq_refl) as (Hnx & Hnp' & [nn Hnn]).
    assert (n <> p) by congruence.
    unfold remove. repeat (step; rewrite ?Ep, ?En; simpl).
    eexists; split; [reflexivity|]; simpl.
    repeat split; after_writes.
  - destruct (Hp p eq_refl) as (Hpx & [np Hnp]).
    unfold remove. repeat (step; rewrite ?Ep, ?En; simpl).
    eexists; split; [reflexivity|]; simpl.
    repeat split; after_writes.
  - destruct (Hn n eq_refl) as (Hnx & Hnp' & [nn Hnn]).
    unfold remove. repeat (step; rewrite ?Ep, ?En; simpl).
    eexists; split; [reflexivity|]; simpl.
    repeat split; after_writes.
  - unfold remove. repeat (step; rewrite ?Ep, ?En; simpl).
    eexists; split; [reflexivity|]; simpl.
    repeat split; after_writes.
Qed.

End Exec.

(** ** Positions in a list of nodes *)

Section Positions.
Implicit Types (xs : list loc) (x y : loc) (i j k : nat).

Lemma insert_at_lookup_lt xs k x j :
  k <= length xs -> j < k -> insert_at k x xs !! j = xs !! j.
Proof.
  intros Hk Hj. unfold insert_at.
  rewrite lookup_app_l by (rewrite length_take_le; lia).
  by apply lookup_take_lt.
Qed.

Lemma insert_at_lookup_eq xs k x :
  k <= length xs -> insert_at k x xs !! k = Some x.
Proof.
  intros Hk. unfold insert_at.
  rewrite lookup_app_r by (rewrite length_take_le; lia).
  rewrite length_take_le by lia. by rewrite Nat.sub_diag.
Qed.

Lemma insert_at_lookup_gt xs k x j :
  k <= length xs -> k <= j -> insert_at k x xs !! S j = xs !! j.
Proof.
  intros Hk Hj. unfold insert_at.
  rewrite lookup_app_r by (rewrite length_take_le; lia).
  rewrite length_take_le by lia.
  replace (S j - k) with (S (j - k)) by lia. simpl.
  rewrite lookup_drop. f_equal. lia.
Qed.

Lemma insert_at_length xs k x : length (insert_at k x xs) = S (length xs).
Proof.
  unfold insert_at. rewrite length_app. simpl.
  rewrite <- (take_drop k xs) at 3. rewrite length_app. lia.
Qed.

Lemma insert_at_elem_of xs k x y : y ∈ insert_at k x xs <-> y = x \/ y ∈ xs.
Proof.
  unfold insert_at. rewrite elem_of_app, elem_of_cons.
  rewrite <- (take_drop k xs) at 3. rewrite elem_of_app. tauto.
Qed.

Lemma insert_at_NoDup xs k x : NoDup xs -> x ∉ xs -> NoDup (insert_at k x xs).
Proof.
  intros Hnd Hx. rewrite <- (take_drop k xs) in Hnd, Hx.
  apply NoDup_app in Hnd as (H1 & H2 & H3).
  rewrite elem_of_app in Hx.
  unfold insert_at. apply NoDup_app. split; [done|]. split.
  - intros y Hy. rewrite elem_of_cons. intros [-> |Hy']; [tauto|].
    by apply (H2 y).
  - apply NoDup_cons. tauto.
Qed.

Lemma prev_at_insert_at_le xs k x i :
  k <= length xs -> i <= k -> prev_at (insert_at k x xs) i = prev_at xs i.
Proof.
  intros Hk Hi. destruct i as [|j]; simpl; [done|].
  apply insert_at_lookup_lt; lia.
Qed.

Lemma prev_at_elem xs k y : prev_at xs k = Some y -> exists j, k = S j /\ xs !! j = Some y.
Proof. destruct k as [|j]; simpl; [done|]. eauto. Qed.

Lemma NoDup_prev_at xs i k y :
  NoDup xs -> xs !! i = Some y -> prev_at xs k = Some y -> k = S i.
Proof.
  intros Hnd Hi Hk. apply prev_at_elem in Hk as (j & -> & Hj).
  f_equal. eapply NoDup_lookup; eauto.
Qed.

Lemma prev_at_delete_le xs i j :
  j <= i -> prev_at (delete i xs) j = prev_at xs j.
Proof.
  intros Hj. destruct j as [|j']; simpl; [done|].
  apply list_lookup_delete_lt; lia.
Qed.

End Positions.

(** ** The links of a well-formed list *)

Section Links.
Context {D : Type}.
Implicit Types (s : Store D) (h : gmap loc (Node D)) (xs : list loc)
  (x y : loc) (i j k : nat).

(** After a node has been spliced in at position [k]. *)
Lemma linked_insert_at h h' xs k x dx :
  NoDup xs -> x ∉ xs -> k <= length xs -> linked h xs ->
  h' !! x = Some (mkNode (xs !! k) (prev_at xs k) dx) ->
  (forall a na, prev_at xs k = Some a -> h !! a = Some na ->
     h' !! a = Some (mkNode (Some x) (Prev na) (Data na))) ->
  (forall c nc, xs !! k = Some c -> h !! c = Some nc ->
     h' !! c = Some (mkNode (Next nc) (Some x) (Data nc))) ->
  (forall y, y <> x -> Some y <> prev_at xs k -> Some y <> xs !! k ->
     h' !! y = h !! y) ->
  linked h' (insert_at k x xs).
Proof.
  intros Hnd Hx Hk Hl Hnew Hpred Hsucc Hrest i y Hy.
  destruct (lt_eq_lt_dec i k) as [[Hlt| ->]|Hgt].
  - (* before the new node *)
    rewrite insert_at_lookup_lt in Hy by lia.
    destruct (Hl i y Hy) as (nd & Hnd' & HN & HP).
    assert (y <> x) by (intros ->; apply Hx; by eapply list_elem_of_lookup_2).
    rewrite prev_at_insert_at_le by lia.
    destruct (decide (S i = k)) as [<- |Hne].
    + exists (mkNode (Some x) (Prev nd) (Data nd)). split.
      * apply Hpred; done.
      * simpl. by rewrite insert_at_lookup_eq.
    + exists nd. split.
      * rewrite Hrest; [done|done| |].
        -- intros Heq. symmetry in Heq.
           pose proof (NoDup_prev_at _ _ _ _ Hnd Hy Heq). lia.
        -- intros Heq. symmetry in Heq.
           pose proof (NoDup_lookup _ _ _ _ Hnd Hy Heq). lia.
      * rewrite insert_at_lookup_lt by lia. done.
  - (* the new node *)
    rewrite insert_at_lookup_eq in Hy by lia. injection Hy as <-.
    eexists; split; [exact Hnew|]. simpl.
    rewrite insert_at_lookup_gt by lia.
    rewrite prev_at_insert_at_le by lia. done.
  - (* behind the new node *)
    destruct i as [|j]; [lia|].
    rewrite insert_at_lookup_gt in Hy by lia.
    destruct (Hl j y Hy) as (nd & Hnd' & HN & HP).
    assert (y <> x) by (intros ->; apply Hx; by eapply list_elem_of_lookup_2).
    rewrite insert_at_lookup_gt by lia. simpl.
    destruct (decide (j = k)) as [-> |Hne].
    + exists (mkNode (Next nd) (Some x) (Data nd)). split.
      * apply Hsucc; done.
      * simpl. by rewrite insert_at_lookup_eq.
    + exists nd. split.
      * rewrite Hrest; [done|done| |].
        -- intros Heq. symmetry in Heq.
           pose proof (NoDup_prev_at _ _ _ _ Hnd Hy Heq). lia.
        -- intros Heq. symmetry in Heq.
           pose proof (NoDup_lookup _ _ _ _ Hnd Hy Heq). lia.
      * split; [done|]. rewrite HP.
        destruct j as [|j']; [lia|]. simpl.
        rewrite insert_at_lookup_gt by lia. done.
Qed.

(** After the node at position [i] has been taken out. *)
Lemma linked_delete h h' xs i x :
  NoDup xs -> xs !! i = Some x -> linked h xs ->
  (forall q nq, prev_at xs i = Some q -> h !! q = Some nq ->
     h' !! q = Some (mkNode (xs !! S i) (Prev nq) (Data nq))) ->
  (forall q nq, xs !! S i = Some q -> h !! q = Some nq ->
     h' !! q = Some (mkNode (Next nq) (prev_at xs i) (Data nq))) ->
  (forall y, y <> x -> Some y <> prev_at xs i -> Some y <> xs !! S i ->
     h' !! y = h !! y) ->
  linked h' (delete i xs).
Proof.
  intros Hnd Hx Hl Hpred Hsucc Hrest j y Hy.
  destruct (le_lt_dec i j) as [Hge|Hlt].
  - (* behind the removed node *)
    rewrite list_lookup_delete_ge in Hy by lia.
    destruct (Hl (S j) y Hy) as (nd & Hnd' & HN & HP).
    assert (y <> x).
    { intros ->. pose proof (NoDup_lookup _ _ _ _ Hnd Hy Hx). lia. }
    rewrite list_lookup_delete_ge by lia.
    destruct (decide (j = i)) as [-> |Hne].
    + exists (mkNode (Next nd) (prev_at xs i) (Data nd)). split.
      * apply Hsucc; done.
      * simpl. split; [done|]. by rewrite prev_at_delete_le.
    + exists nd. split.
      * rewrite Hrest; [done|done| |].
        -- intros Heq. symmetry in Heq.
           pose proof (NoDup_prev_at _ _ _ _ Hnd Hy Heq). lia.
        -- intros Heq. symmetry in Heq.
           pose proof (NoDup_lookup _ _ _ _ Hnd Hy Heq). lia.
      * split; [done|]. rewrite HP. simpl.
        destruct j as [|j']; [lia|]. simpl.
        rewrite list_lookup_delete_ge by lia. done.
  - (* before the removed node *)
    rewrite list_lookup_delete_lt in Hy by lia.
    destruct (Hl j y Hy) as (nd & Hnd' & HN & HP).
    assert (y <> x).
    { intros ->. pose proof (NoDup_lookup _ _ _ _ Hnd Hy Hx). lia. }
    rewrite prev_at_delete_le by lia.
    destruct (decide (S j = i)) as [<- |Hne].
    + exists (mkNode (xs !! S (S j)) (Prev nd) (Data nd)). split.
      * apply Hpred; done.
      * simpl. by rewrite list_lookup_delete_ge by lia.
    + exists nd. split.
      * rewrite Hrest; [done|done| |].
        -- intros Heq. symmetry in Heq.
           pose proof (NoDup_prev_at _ _ _ _ Hnd Hy Heq). lia.
        -- intros Heq. symmetry in Heq.
           pose proof (NoDup_lookup _ _ _ _ Hnd Hy Heq). lia.
      * rewrite list_lookup_delete_lt by lia. done.
Qed.

(** Nodes outside the list may change freely. *)
Lemma linked_frame h h' xs :
  linked h xs -> (forall y, y ∈ xs -> h' !! y = h !! y) -> linked h' xs.
Proof.
  intros Hl Hsame i y Hy.
  destruct (Hl i y Hy) as (nd & ? & ? & ?).
  exists nd. rewrite Hsame by (by eapply list_elem_of_lookup_2). done.
Qed.

Lemma dll_check_sound s xs : dll_check s xs = true -> dll s xs.
Proof.
  unfold dll_check. rewrite !andb_true_iff, !bool_decide_eq_true.
  intros [[[Hnd Hh] Ht] Hall]. split; try done.
  intros i x Hx.
  rewrite forallb_forall in Hall.
  assert (In i (seq 0 (length xs))) as Hin.
  { apply in_seq. apply lookup_lt_Some in Hx. lia. }
  specialize (Hall i Hin). unfold node_check in Hall.
  rewrite Hx in Hall. destruct (objs s !! x) as [nd|]; [|done].
  apply andb_true_iff in Hall as [H1 H2].
  apply bool_decide_eq_true in H1, H2. eauto.
Qed.

End Links.

(** ** The methods on a well-formed list *)

Section Methods.
Context {D : Type}.
Implicit Types (s : Store D) (xs : list loc) (x y : loc) (i j k : nat)
  (after : ref).

Lemma dll_node s xs i x :
  dll s xs -> xs !! i = Some x ->
  exists nd, objs s !! x = Some nd /\ Next nd = xs !! S i /\ Prev nd = prev_at xs i.
Proof. intros [_ _ _ Hl] Hx. exact (Hl i x Hx). Qed.

Lemma dll_member s xs x :
  dll s xs -> x ∈ xs -> is_Some (objs s !! x).
Proof.
  intros Hd [i Hi]%list_elem_of_lookup_1.
  destruct (dll_node _ _ _ _ Hd Hi) as (nd & ? & _). eauto.
Qed.

(** [insert] with [after] the node before position [k] ([None] for the
    front): the call returns, and the new store is described link by link. *)
Lemma insert_at_exec s xs x nx k after :
  dll s xs -> objs s !! x = Some nx -> x ∉ xs ->
  k <= length xs -> prev_at xs k = after ->
  exists s',
    insert (Some x) after s = Some (tt, s') /\
    objs s' !! x = Some (mkNode (xs !! k) after (Data nx)) /\
    (forall a na, after = Some a -> objs s !! a = Some na ->
       objs s' !! a = Some (mkNode (Some x) (Prev na) (Data na))) /\
    (forall c nc, xs !! k = Some c -> objs s !! c = Some nc ->
       objs s' !! c = Some (mkNode (Next nc) (Some x) (Data nc))) /\
    (forall y, y <> x -> Some y <> after -> Some y <> xs !! k ->
       objs s' !! y = objs s !! y) /\
    Head (self s') = (if truthy after then Head (self s) else Some x) /\
    Tail (self s') = (if truthy (xs !! k) then Tail (self s) else Some x).
Proof.
  intros Hd Hx Hfresh Hk Hafter.
  apply insert_exec.
  - done.
  - intros ->. destruct k as [|j]; simpl in Hafter.
    + rewrite (dll_head _ _ Hd). by rewrite head_lookup.
    + apply lookup_ge_None_1 in Hafter. lia.
  - intros a ->. apply prev_at_elem in Hafter as (j & -> & Hj).
    split.
    + intros ->. apply Hfresh. by eapply list_elem_of_lookup_2.
    + destruct (dll_node _ _ _ _ Hd Hj) as (na & ? & ? & _). eauto.
  - intros c Hc. split; [|split].
    + intros ->. apply Hfresh. by eapply list_elem_of_lookup_2.
    + rewrite <- Hafter. intros Heq. symmetry in Heq.
      pose proof (NoDup_prev_at _ _ _ _ (dll_nodup _ _ Hd) Hc Heq). lia.
    + destruct (dll_node _ _ _ _ Hd Hc) as (nc & ? & _). eauto.
Qed.

(** ... and the list is well formed again, with [x] at position [k]. *)
Lemma insert_at_dll s s' xs x k after :
  dll s xs -> x ∈ dom (objs s) -> x ∉ xs ->
  k <= length xs -> prev_at xs k = after ->
  insert (Some x) after s = Some (tt, s') ->
  dll s' (insert_at k x xs).
Proof.
  intros Hd [nx Hx]%elem_of_dom Hfresh Hk Hafter Hrun.
  destruct (insert_at_exec _ _ _ _ _ _ Hd Hx Hfresh Hk Hafter)
    as (s1 & Hrun1 & Hnew & Hpred & Hsucc & Hrest & Hhead & Htail).
  rewrite Hrun in Hrun1. injection Hrun1 as <-.
  destruct Hd as [Hnd Hh Ht Hl]. split.
  - by apply insert_at_NoDup.
  - rewrite Hhead, head_lookup. destruct k as [|j]; simpl in Hafter.
    + subst after. cbn [truthy]. by rewrite insert_at_lookup_eq by lia.
    + assert (is_Some (xs !! j)) as [a Ha] by (apply lookup_lt_is_Some; lia).
      rewrite Ha in Hafter. subst after. cbn [truthy].
      rewrite insert_at_lookup_lt by lia. by rewrite Hh, head_lookup.
  - rewrite Htail, last_lookup, insert_at_length. simpl.
    destruct (xs !! k) as [c|] eqn:Hc; simpl.
    + apply lookup_lt_Some in Hc.
      destruct (length xs) as [|n] eqn:Hlen; [lia|].
      rewrite insert_at_lookup_gt by lia.
      by rewrite Ht, last_lookup, Hlen.
    + apply lookup_ge_None_1 in Hc.
      assert (k = length xs) as -> by lia.
      by rewrite insert_at_lookup_eq.
  - eapply linked_insert_at; eauto.
    + by rewrite Hafter.
    + by rewrite Hafter.
    + by rewrite Hafter.
Qed.

(** [remove] of the node at position [i]: the call returns, and the new
    store is described link by link. *)
Lemma remove_at_exec s xs i x :
  dll s xs -> xs !! i = Some x ->
  exists nx s',
    objs s !! x = Some nx /\
    Next nx = xs !! S i /\ Prev nx = prev_at xs i /\
    remove (Some x) s = Some (tt, s') /\
    objs s' !! x = Some nx /\
    (forall q nq, Prev nx = Some q -> objs s !! q = Some nq ->
       objs s' !! q = Some (mkNode (Next nx) (Prev nq) (Data nq))) /\
    (forall q nq, Next nx = Some q -> objs s !! q = Some nq ->
       objs s' !! q = Some (mkNode (Next nq) (Prev nx) (Data nq))) /\
    (forall y, y <> x -> Some y <> Prev nx -> Some y <> Next nx ->
       objs s' !! y = objs s !! y) /\
    Head (self s') = (if is_none (Prev nx) then Next nx else Head (self s)) /\
    Tail (self s') = (if is_none (Next nx) then Prev nx else Tail (self s)).
Proof.
  intros Hd Hx.
  destruct (dll_node _ _ _ _ Hd Hx) as (nx & Hnx & HN & HP).
  pose proof (dll_nodup _ _ Hd) as Hnd.
  destruct (remove_exec s x nx Hnx) as (s' & Hrun).
  - intros q Hq. rewrite HP in Hq.
    apply prev_at_elem in Hq as (j & -> & Hj). split.
    + intros ->. pose proof (NoDup_lookup _ _ _ _ Hnd Hj Hx). lia.
    + destruct (dll_node _ _ _ _ Hd Hj) as (nq & ? & _). eauto.
  - intros q Hq. rewrite HN in Hq. split; [|split].
    + intros ->. pose proof (NoDup_lookup _ _ _ _ Hnd Hq Hx). lia.
    + rewrite HP. intros Heq. symmetry in Heq.
      pose proof (NoDup_prev_at _ _ _ _ Hnd Hq Heq). lia.
    + destruct (dll_node _ _ _ _ Hd Hq) as (nq & ? & _). eauto.
  - exists nx, s'. tauto.
Qed.

(** ... and the list is well formed again, without that node. *)
Lemma remove_at_dll s s' xs i x :
  dll s xs -> xs !! i = Some x ->
  remove (Some x) s = Some (tt, s') ->
  dll s' (delete i xs).
Proof.
  intros Hd Hx Hrun.
  destruct (remove_at_exec _ _ _ _ Hd Hx)
    as (nx & s1 & Hnx & HN & HP & Hrun1 & Hold & Hpred & Hsucc & Hrest & Hhead & Htail).
  rewrite Hrun in Hrun1. injection Hrun1 as <-.
  pose proof (lookup_lt_Some _ _ _ Hx) as Hlen.
  destruct Hd as [Hnd Hh Ht Hl]. split.
  - eapply sublist_NoDup; [exact Hnd|]. apply sublist_delete.
  - rewrite Hhead, head_lookup, HP, HN. destruct i as [|j]; simpl.
    + by rewrite list_lookup_delete_ge by lia.
    + assert (is_Some (xs !! j)) as [a Ha] by (apply lookup_lt_is_Some; lia).
      rewrite Ha. simpl. rewrite list_lookup_delete_lt by lia.
      by rewrite Hh, head_lookup.
  - rewrite Htail, last_lookup, length_delete by eauto. rewrite HP, HN.
    destruct (xs !! S i) as [c|] eqn:Hc; simpl.
    + apply lookup_lt_Some in Hc.
      rewrite list_lookup_delete_ge by lia.
      rewrite Ht, last_lookup. f_equal. lia.
    + apply lookup_ge_None_1 in Hc.
      destruct i as [|j]; simpl.
      * symmetry. apply lookup_ge_None_2. rewrite length_delete by eauto. lia.
      * rewrite list_lookup_delete_lt by lia. f_equal. lia.
  - eapply linked_delete; eauto.
    + intros q nq Hq Hnq. rewrite <- HN. apply Hpred; [by rewrite HP|done].
    + intros q nq Hq Hnq. rewrite <- HP. apply Hsucc; [by rewrite HN|done].
    + intros y ? ? ?. apply Hrest; [done|by rewrite HP|by rewrite HN].
Qed.

End Methods.

(** ** Histories keep the list well formed *)

Section Histories.
Context {D : Type}.
Implicit Types (s : Store D) (xs : list loc) (x y : loc) (i j k : nat)
  (m : gset loc).

Lemma delete_elem_of xs i x y :
  NoDup xs -> xs !! i = Some x -> y ∈ delete i xs <-> y ∈ xs /\ y <> x.
Proof.
  intros Hnd Hx. rewrite delete_take_drop.
  pose proof (take_drop_middle xs i x Hx) as Hmid.
  revert Hmid. generalize (take i xs) (drop (S i) xs).
  intros l1 l2 <-.
  apply NoDup_app in Hnd as (_ & Hdisj & [Hx2 _]%NoDup_cons).
  rewrite !elem_of_app, elem_of_cons. split.
  - intros [Hy|Hy].
    + split; [tauto|]. intros ->. apply (Hdisj x Hy). left.
    + split; [tauto|]. by intros ->.
  - intros [[Hy|[->|Hy]] Hne]; tauto.
Qed.

Lemma Node_init_dll s xs d r s' :
  dll s xs -> Node_init d s = Some (r, s') -> dll s' xs.
Proof.
  intros Hd Hrun. unfold Node_init in Hrun. injection Hrun as <- <-.
  destruct Hd as [Hnd Hh Ht Hl]. split; try done. simpl.
  eapply linked_frame; [exact Hl|].
  intros y Hy. apply lookup_insert_ne. intros Heq.
  assert (is_Some (objs s !! y)) as Hsome.
  { apply (dll_member s xs); [by split|done]. }
  apply elem_of_dom in Hsome. rewrite <- Heq in Hsome.
  by apply is_fresh in Hsome.
Qed.

Lemma empty_store_dll : dll (@empty_store D) [].
Proof. split; try done. apply NoDup_nil_2. Qed.

(** The position behind [after]. *)
Lemma after_position xs (after : ref) :
  (forall n, after = Some n -> n ∈ xs) ->
  exists k, k <= length xs /\ prev_at xs k = after.
Proof.
  intros Hafter. destruct after as [n|].
  - destruct (list_elem_of_lookup_1 _ _ (Hafter n eq_refl)) as [i Hi].
    exists (S i). split; [|done]. apply lookup_lt_Some in Hi. lia.
  - exists 0. split; [lia|done].
Qed.

Lemma reachable_dll s m :
  reachable s m -> exists xs, dll s xs /\ list_to_set xs = m.
Proof.
  induction 1 as [|s m d r s' _ (xs & Hd & Hm) Hrun
                  |s m x after s' _ (xs & Hd & Hm) Hx Hfresh Hafter Hrun
                  |s m x s' _ (xs & Hd & Hm) Hx Hrun].
  - exists []. split; [apply empty_store_dll|done].
  - exists xs. split; [|done]. by eapply Node_init_dll.
  - subst m. rewrite elem_of_list_to_set in Hfresh.
    destruct (after_position xs after) as (k & Hk & Hprev).
    { intros n Hn. apply (elem_of_list_to_set (C:=gset loc)). by apply Hafter. }
    exists (insert_at k x xs). split.
    + by eapply insert_at_dll.
    + apply set_eq. intros y.
      rewrite elem_of_list_to_set, insert_at_elem_of.
      rewrite elem_of_union, elem_of_singleton, elem_of_list_to_set. done.
  - subst m. rewrite elem_of_list_to_set in Hx.
    apply list_elem_of_lookup_1 in Hx as [i Hi].
    exists (delete i xs). split.
    + by eapply remove_at_dll.
    + apply set_eq. intros y.
      rewrite elem_of_list_to_set, (delete_elem_of xs i x) by (done || apply Hd).
      rewrite elem_of_difference, elem_of_singleton, elem_of_list_to_set. done.
Qed.

Lemma reachable_by_inserts_reachable s m :
  reachable_by_inserts s m -> reachable s m.
Proof.
  induction 1.
  - apply reach_empty.
  - by eapply reach_node.
  - by eapply reach_insert.
Qed.

(** A valid call always returns. *)
Lemma reachable_insert_returns s m x after :
  reachable s m -> x ∈ dom (objs s) -> x ∉ m ->
  (forall n, after = Some n -> n ∈ m) ->
  exists s', insert (Some x) after s = Some (tt, s').
Proof.
  intros (xs & Hd & <-)%reachable_dll [nx Hx]%elem_of_dom Hfresh Hafter.
  rewrite elem_of_list_to_set in Hfresh.
  destruct (after_position xs after) as (k & Hk & Hprev).
  { intros n Hn. apply (elem_of_list_to_set (C:=gset loc)). by apply Hafter. }
  destruct (insert_at_exec _ _ _ _ _ _ Hd Hx Hfresh Hk Hprev) as (s' & ? & _).
  eauto.
Qed.

Lemma reachable_remove_returns s m x :
  reachable s m -> x ∈ m ->
  exists s', remove (Some x) s = Some (tt, s').
Proof.
  intros (xs & Hd & <-)%reachable_dll Hx.
  rewrite elem_of_list_to_set in Hx.
  apply list_elem_of_lookup_1 in Hx as [i Hi].
  destruct (remove_at_exec _ _ _ _ Hd Hi) as (nx & s' & _ & _ & _ & ? & _).
  eauto.
Qed.

End Histories.

(** * The claims *)

Section ListClaims.
Context {D : Type}.
Implicit Types (s : Store D) (xs : list loc) (x y n : loc) (i j k : nat)
  (m : gset loc).

Lemma dll_tail_position s xs i n :
  dll s xs -> xs !! i = Some n ->
  Tail (self s) = Some n <-> xs !! S i = None.
Proof.
  intros Hd Hi. rewrite (dll_tail _ _ Hd), last_lookup.
  pose proof (lookup_lt_Some _ _ _ Hi) as Hlt. split.
  - intros Hlast.
    pose proof (NoDup_lookup _ _ _ _ (dll_nodup _ _ Hd) Hi Hlast) as ->.
    apply lookup_ge_None_2. lia.
  - intros Hnone%lookup_ge_None_1.
    replace (pred (length xs)) with i by lia. done.
Qed.

(** C1.  On a well-formed list [xs] and for a node [x] outside it:
    [insert(x)] returns, makes [x] the head with [x.Prev] [None] and
    [x.Next] the old head, and makes [x] the tail too when the list was
    empty; [insert(x, after=n)] for a member [n] returns, gives [x.Next]
    the old [n.Next], sets [x.Prev] to [n] and [n.Next] to [x], makes [x]
    the tail when [n] was the tail and otherwise repoints the [Prev] of
    the old successor of [n] to [x].  In both cases the list is well
    formed again, with [x] in front, respectively right behind [n]. *)
Theorem insert_links s xs x nx :
  dll s xs -> x ∉ xs -> objs s !! x = Some nx ->
  (exists s',
     insert (Some x) None s = Some (tt, s') /\
     Head (self s') = Some x /\
     (exists nd, objs s' !! x = Some nd /\
                 Prev nd = None /\ Next nd = Head (self s)) /\
     (xs = [] -> Tail (self s') = Some x) /\
     dll s' (x :: xs))
  /\
  (forall i n nn, xs !! i = Some n -> objs s !! n = Some nn ->
   exists s',
     insert (Some x) (Some n) s = Some (tt, s') /\
     (exists nd, objs s' !! x = Some nd /\
                 Next nd = Next nn /\ Prev nd = Some n) /\
     (exists nd, objs s' !! n = Some nd /\ Next nd = Some x) /\
     (Tail (self s) = Some n -> Tail (self s') = Some x) /\
     (Tail (self s) <> Some n ->
      exists c nc, Next nn = Some c /\
                   objs s' !! c = Some nc /\ Prev nc = Some x) /\
     dll s' (take (S i) xs ++ x :: drop (S i) xs)).
Proof.
  intros Hd Hfresh Hx. split.
  - destruct (insert_at_exec s xs x nx 0 None Hd Hx Hfresh
                  (Nat.le_0_l _) eq_refl) as
      (s' & Hrun & Hnew & _ & _ & _ & Hhead & Htail).
    exists s'. split; [done|]. split; [done|]. split; [|split].
    + eexists; split; [exact Hnew|]. simpl. split; [done|].
      by rewrite (dll_head _ _ Hd), head_lookup.
    + intros ->. by rewrite Htail.
    + apply (insert_at_dll s s' xs x 0 None); try done; [|lia].
      apply elem_of_dom; eauto.
  - intros i n nn Hi Hn.
    pose proof (lookup_lt_Some _ _ _ Hi) as Hlt.
    destruct (dll_node _ _ _ _ Hd Hi) as (nn' & Hn' & HN & _).
    assert (nn' = nn) as -> by congruence.
    destruct (insert_at_exec s xs x nx (S i) (Some n) Hd Hx Hfresh Hlt Hi) as
      (s' & Hrun & Hnew & Hpred & Hsucc & _ & Hhead & Htail).
    exists s'. split; [done|]. split; [|split; [|split; [|split]]].
    + eexists; split; [exact Hnew|]. by rewrite HN.
    + eexists; split; [by apply Hpred|]. done.
    + intros Ht%(dll_tail_position s xs i n Hd Hi). by rewrite Htail, Ht.
    + intros Ht. rewrite (dll_tail_position s xs i n Hd Hi) in Ht.
      destruct (xs !! S i) as [c|] eqn:Hc; [|done].
      destruct (dll_node _ _ _ _ Hd Hc) as (nc & Hnc & _).
      exists c, (mkNode (Next nc) (Some x) (Data nc)).
      split; [done|]. split; [by apply Hsucc|done].
    + apply (insert_at_dll s s' xs x (S i) (Some n)); try done.
      apply elem_of_dom; eauto.
Qed.

(** C2.  On a well-formed list and for a member [x]: [remove(x)] returns;
    it sets [Head] to [x.Next] when [x.Prev] is [None] and otherwise sets
    the [Next] of [x.Prev] to [x.Next]; it sets [Tail] to [x.Prev] when
    [x.Next] is [None] and otherwise sets the [Prev] of [x.Next] to
    [x.Prev]; removing the only node leaves [Head] and [Tail] [None]. *)
Theorem remove_links s xs x :
  dll s xs -> x ∈ xs ->
  exists nx s',
    objs s !! x = Some nx /\
    remove (Some x) s = Some (tt, s') /\
    (Prev nx = None -> Head (self s') = Next nx) /\
    (forall p, Prev nx = Some p ->
       Head (self s') = Head (self s) /\
       exists np, objs s' !! p = Some np /\ Next np = Next nx) /\
    (Next nx = None -> Tail (self s') = Prev nx) /\
    (forall n, Next nx = Some n ->
       Tail (self s') = Tail (self s) /\
       exists nn, objs s' !! n = Some nn /\ Prev nn = Prev nx) /\
    (xs = [x] -> Head (self s') = None /\ Tail (self s') = None).
Proof.
  intros Hd [i Hi]%list_elem_of_lookup_1.
  destruct (remove_at_exec _ _ _ _ Hd Hi) as
    (nx & s' & Hnx & HN & HP & Hrun & _ & Hpred & Hsucc & _ & Hhead & Htail).
  exists nx, s'. split; [done|]. split; [done|].
  split; [|split; [|split; [|split]]].
  - intros Hp. by rewrite Hhead, Hp.
  - intros p Hp. split; [by rewrite Hhead, Hp|].
    assert (exists j, i = S j /\ xs !! j = Some p) as (j & -> & Hj).
    { apply prev_at_elem. by rewrite <- HP. }
    destruct (dll_node _ _ _ _ Hd Hj) as (np & Hnp & _).
    eexists; split; [by apply Hpred|done].
  - intros Hn. by rewrite Htail, Hn.
  - intros n Hn. split; [by rewrite Htail, Hn|].
    assert (xs !! S i = Some n) as Hj by (by rewrite <- HN).
    destruct (dll_node _ _ _ _ Hd Hj) as (nn & Hnn & _).
    eexists; split; [by apply Hsucc|done].
  - intros ->. destruct i as [|i]; [|done].
    simpl in HN, HP. by rewrite Hhead, Htail, HP, HN.
Qed.

(** C3.  After any history of node creations and valid [insert] and
    [remove] calls from the empty list, with [m] the nodes inserted and
    not removed: when the list is not empty, [Head.Prev] and [Tail.Next]
    are [None]; and [Head] and [Tail] are both [None] exactly when [m] is
    empty (each of them is [None] only then). *)
Theorem reachable_ends s m :
  reachable s m ->
  (forall hd, Head (self s) = Some hd ->
     exists nd, objs s !! hd = Some nd /\ Prev nd = None) /\
  (forall tl, Tail (self s) = Some tl ->
     exists nd, objs s !! tl = Some nd /\ Next nd = None) /\
  (Head (self s) = None /\ Tail (self s) = None <-> m = ∅) /\
  (Head (self s) = None <-> Tail (self s) = None).
Proof.
  intros (xs & Hd & <-)%reachable_dll.
  pose proof (dll_head _ _ Hd) as Hh. pose proof (dll_tail _ _ Hd) as Ht.
  rewrite head_lookup in Hh. rewrite last_lookup in Ht.
  split; [|split; [|split]].
  - intros hd Hhd. rewrite Hhd in Hh. symmetry in Hh.
    destruct (dll_node _ _ _ _ Hd Hh) as (nd & ? & _ & ?). eauto.
  - intros tl Htl. rewrite Htl in Ht. symmetry in Ht.
    destruct (dll_node _ _ _ _ Hd Ht) as (nd & ? & HN & _).
    exists nd. split; [done|]. rewrite HN.
    apply lookup_ge_None_2. apply lookup_lt_Some in Ht. lia.
  - destruct xs as [|x0 xs']; simpl in *.
    + rewrite Hh, Ht. done.
    + rewrite Hh. split; [intros [? _]; done|].
      intros Hm. exfalso. apply (not_elem_of_empty (C:=gset loc) x0).
      rewrite <- Hm. set_solver.
  - rewrite Hh, Ht. destruct xs as [|x0 xs']; [done|].
    split; [done|]. intros Hn%lookup_ge_None_1. simpl in Hn. lia.
Qed.

(** C4.  On a well-formed list, for a node [x] outside it and [after]
    [None] or a member: [insert(x, after)] followed by [remove(x)]
    returns, and leaves [Head], [Tail] and every node other than [x]
    exactly as they were before the insert. *)
Theorem insert_remove_restores s xs x after :
  dll s xs -> x ∈ dom (objs s) -> x ∉ xs ->
  (forall n, after = Some n -> n ∈ xs) ->
  exists s1 s2,
    insert (Some x) after s = Some (tt, s1) /\
    remove (Some x) s1 = Some (tt, s2) /\
    Head (self s2) = Head (self s) /\
    Tail (self s2) = Tail (self s) /\
    (forall y, y <> x -> objs s2 !! y = objs s !! y) /\
    dll s2 xs.
Proof.
  intros Hd Hdom Hfresh Hafter.
  destruct (after_position xs after Hafter) as (k & Hk & Hprev).
  pose proof Hdom as [nx Hx]%elem_of_dom.
  destruct (insert_at_exec _ _ _ _ _ _ Hd Hx Hfresh Hk Hprev) as
    (s1 & Hrun1 & Hnew & Hpred & Hsucc & Hrest & Hhead & Htail).
  pose proof (insert_at_dll _ _ _ _ _ _ Hd Hdom Hfresh Hk Hprev Hrun1) as Hd1.
  pose proof (insert_at_lookup_eq xs k x Hk) as Hxk.
  destruct (remove_at_exec _ _ _ _ Hd1 Hxk) as
    (nx1 & s2 & Hnx1 & _ & _ & Hrun2 & _ & Hpred2 & Hsucc2 & Hrest2 & Hhead2 & Htail2).
  rewrite Hnew in Hnx1. injection Hnx1 as <-. simpl in *.
  assert (Head (self s2) = Head (self s)) as HH.
  { rewrite Hhead2, Hhead. destruct after as [a|]; simpl; [done|].
    destruct k as [|j]; simpl in Hprev.
    - by rewrite (dll_head _ _ Hd), head_lookup.
    - apply lookup_ge_None_1 in Hprev. lia. }
  assert (Tail (self s2) = Tail (self s)) as HT.
  { rewrite Htail2, Htail. destruct (xs !! k) as [c|] eqn:Hc; simpl; [done|].
    apply lookup_ge_None_1 in Hc. assert (k = length xs) as -> by lia.
    rewrite <- Hprev, (dll_tail _ _ Hd), last_lookup.
    destruct (length xs) as [|j] eqn:Hlen; simpl; [|done].
    symmetry. apply lookup_ge_None_2. lia. }
  assert (forall y, y <> x -> objs s2 !! y = objs s !! y) as Hobjs.
  { intros y Hy.
    destruct (decide (Some y = after)) as [Hya|Hya].
    - symmetry in Hya. pose proof Hprev as Hp'. rewrite Hya in Hp'.
      apply prev_at_elem in Hp' as (j & -> & Hj).
      destruct (dll_node _ _ _ _ Hd Hj) as (na & Hna & HN & _).
      rewrite (Hpred2 y _ Hya (Hpred y na Hya Hna)). simpl.
      rewrite Hna, <- HN. by destruct na.
    - destruct (decide (Some y = xs !! k)) as [Hyc|Hyc].
      + symmetry in Hyc.
        destruct (dll_node _ _ _ _ Hd Hyc) as (nc & Hnc & _ & HP).
        rewrite (Hsucc2 y _ Hyc (Hsucc y nc Hyc Hnc)). simpl.
        rewrite Hnc, <- Hprev, <- HP. by destruct nc.
      + rewrite Hrest2 by done. by apply Hrest. }
  exists s1, s2. repeat (split; [done|]).
  destruct Hd as [Hnd Hh Ht Hl]. split; [done|congruence|congruence|].
  eapply linked_frame; [exact Hl|].
  intros y Hy. apply Hobjs. by intros ->.
Qed.

(** C7, as the code has it.  On a well-formed list and for a member [x]:
    [remove(x)] leaves the node [x] itself as it was, its [Next] and
    [Prev] links included. *)
Theorem remove_keeps_own_links s xs x s' :
  dll s xs -> x ∈ xs ->
  remove (Some x) s = Some (tt, s') ->
  objs s' !! x = objs s !! x.
Proof.
  intros Hd [i Hi]%list_elem_of_lookup_1 Hrun.
  destruct (remove_at_exec _ _ _ _ Hd Hi) as
    (nx & s1 & Hnx & _ & _ & Hrun1 & Hold & _).
  rewrite Hrun in Hrun1. injection Hrun1 as <-. by rewrite Hold, Hnx.
Qed.

End ListClaims.

(** ** Reading the list in both directions *)

Section Traversal.
Context {D : Type}.
Implicit Types (s : Store D) (xs : list loc) (x y : loc) (i j k n : nat)
  (m : gset loc).

Lemma payloads_cons s xs i x nd :
  xs !! i = Some x -> objs s !! x = Some nd ->
  payloads (objs s) (drop i xs) = Data nd :: payloads (objs s) (drop (S i) xs).
Proof.
  intros Hi Hx. rewrite (drop_S _ _ _ Hi). unfold payloads. simpl.
  by rewrite Hx.
Qed.

Lemma payloads_snoc s xs i x nd :
  xs !! i = Some x -> objs s !! x = Some nd ->
  payloads (objs s) (take (S i) xs)
  = (payloads (objs s) (take i xs) ++ [Data nd])%list.
Proof.
  intros Hi Hx. rewrite (take_S_r _ _ _ Hi). unfold payloads.
  rewrite omap_app. simpl. by rewrite Hx.
Qed.

Lemma payloads_length s xs :
  dll s xs -> length (payloads (objs s) xs) = length xs.
Proof.
  intros Hd. assert (forall x, x ∈ xs -> is_Some (objs s !! x)) as Hall.
  { intros x. by apply dll_member. }
  clear Hd. unfold payloads. induction xs as [|x xs IH]; [done|].
  simpl. destruct (Hall x) as [nd ->]; [left|]. simpl. f_equal.
  apply IH. intros y Hy. apply Hall. by right.
Qed.

(** The loop of [elements] from position [i] on. *)
Lemma elements_loop_from s xs n : forall i fuel,
  dll s xs -> length xs = i + n -> n < fuel ->
  elements_loop fuel (xs !! i) s
  = Some (payloads (objs s) (drop i xs), s).
Proof.
  induction n as [|n IH]; intros i fuel Hd Hlen Hfuel.
  - destruct fuel as [|fuel]; [lia|]. simpl.
    rewrite (lookup_ge_None_2 xs i) by lia. simpl.
    by rewrite drop_ge by lia.
  - destruct fuel as [|fuel]; [lia|].
    assert (is_Some (xs !! i)) as [x Hi] by (apply lookup_lt_is_Some; lia).
    destruct (dll_node _ _ _ _ Hd Hi) as (nd & Hx & HN & _).
    rewrite Hi. cbn [elements_loop is_none].
    do 2 step. rewrite HN.
    erewrite bind_eq by (apply IH; [done|lia|lia]).
    unfold ret. by rewrite (payloads_cons _ _ _ _ _ Hi Hx).
Qed.

(** The backward loop from the node before position [i] on. *)
Lemma backwards_loop_from s xs i : forall fuel,
  dll s xs -> i <= length xs -> i < fuel ->
  backwards_loop fuel (prev_at xs i) s
  = Some (rev (payloads (objs s) (take i xs)), s).
Proof.
  induction i as [|i IH]; intros fuel Hd Hlen Hfuel.
  - destruct fuel as [|fuel]; [lia|]. done.
  - destruct fuel as [|fuel]; [lia|].
    assert (is_Some (xs !! i)) as [x Hi] by (apply lookup_lt_is_Some; lia).
    destruct (dll_node _ _ _ _ Hd Hi) as (nd & Hx & _ & HP).
    cbn [prev_at]. rewrite Hi. cbn [backwards_loop is_none].
    do 2 step. rewrite HP.
    erewrite bind_eq by (apply IH; [done|lia|lia]).
    unfold ret. rewrite (payloads_snoc _ _ _ _ _ Hi Hx), rev_app_distr. done.
Qed.

(** The path along [Next] from position [i] to the last node. *)
Lemma next_path_from s xs n : forall i a,
  dll s xs -> length xs = S (i + n) -> xs !! i = Some a ->
  exists b, last xs = Some b /\
            next_path (objs s) a b (payloads (objs s) (drop i xs)).
Proof.
  induction n as [|n IH]; intros i a Hd Hlen Hi.
  - exists a. destruct (dll_node _ _ _ _ Hd Hi) as (nd & Hx & HN & _).
    rewrite last_lookup, Hlen. simpl. replace (i + 0) with i by lia.
    split; [done|].
    rewrite (payloads_cons _ _ _ _ _ Hi Hx), drop_ge by lia.
    apply next_path_stop; [done|]. rewrite HN. apply lookup_ge_None_2. lia.
  - destruct (dll_node _ _ _ _ Hd Hi) as (nd & Hx & HN & _).
    assert (is_Some (xs !! S i)) as [c Hc] by (apply lookup_lt_is_Some; lia).
    destruct (IH (S i) c Hd) as (b & Hb & Hpath); [lia|done|].
    exists b. split; [done|].
    rewrite (payloads_cons _ _ _ _ _ Hi Hx).
    eapply next_path_step; [done| |done]. by rewrite HN.
Qed.

Lemma dll_elements s xs fuel :
  dll s xs -> length xs < fuel ->
  elements fuel s = Some (payloads (objs s) xs, s).
Proof.
  intros Hd Hfuel. unfold elements. step.
  rewrite (dll_head _ _ Hd), head_lookup.
  by rewrite (elements_loop_from s xs (length xs) 0 fuel Hd).
Qed.

Lemma dll_backwards s xs fuel :
  dll s xs -> length xs < fuel ->
  backwards fuel s = Some (rev (payloads (objs s) xs), s).
Proof.
  intros Hd Hfuel. unfold backwards. step.
  assert (Tail (self s) = prev_at xs (length xs)) as ->.
  { rewrite (dll_tail _ _ Hd), last_lookup.
    destruct xs as [|x xs']; done. }
  rewrite (backwards_loop_from s xs (length xs) fuel Hd) by lia.
  by rewrite firstn_all.
Qed.

Lemma dll_head_to_tail s xs :
  dll s xs -> head_to_tail s (payloads (objs s) xs).
Proof.
  intros Hd. unfold head_to_tail.
  rewrite (dll_head _ _ Hd), (dll_tail _ _ Hd).
  destruct xs as [|a xs']; [done|].
  destruct (next_path_from s (a :: xs') (length xs') 0 a Hd) as (b & Hb & Hpath);
    [done|done|].
  rewrite Hb. done.
Qed.

(** C5.  After any history of node creations and valid [insert] calls
    from the empty list, with [m] the nodes inserted: given fuel for one
    more test than there are nodes, [elements()] returns, leaves the store
    alone and yields the payloads met along [Next] from [Head] to [Tail];
    the walk along [Prev] from [Tail] yields the same payloads reversed;
    there are as many payloads as nodes inserted, and none when the list
    is empty. *)
Theorem elements_forward_backward s m :
  reachable_by_inserts s m ->
  exists ds,
    (forall fuel, length ds < fuel -> elements fuel s = Some (ds, s)) /\
    head_to_tail s ds /\
    (forall fuel, length ds < fuel -> backwards fuel s = Some (rev ds, s)) /\
    length ds = size m /\
    (m = ∅ -> ds = []).
Proof.
  intros (xs & Hd & <-)%reachable_by_inserts_reachable%reachable_dll.
  pose proof (payloads_length s xs Hd) as Hlen.
  exists (payloads (objs s) xs). split; [|split; [|split; [|split]]].
  - intros fuel Hfuel. apply dll_elements; [done|lia].
  - by apply dll_head_to_tail.
  - intros fuel Hfuel. apply dll_backwards; [done|lia].
  - rewrite Hlen. symmetry. apply size_list_to_set, Hd.
  - intros Hm. destruct xs as [|x xs']; [done|].
    exfalso. apply (not_elem_of_empty (C:=gset loc) x).
    rewrite <- Hm. set_solver.
Qed.

End Traversal.

(** ** Payloads are never written *)

Section Frame.
Context {D : Type}.
Implicit Types (s : Store D) (r v : ref).

Lemma same_payloads_refl s : same_payloads s s.
Proof. intros p nd Hp. eauto. Qed.

Lemma same_payloads_trans s1 s2 s3 :
  same_payloads s1 s2 -> same_payloads s2 s3 -> same_payloads s1 s3.
Proof.
  intros H12 H23 p nd Hp.
  destruct (H12 p nd Hp) as (nd2 & Hp2 & E2).
  destruct (H23 p nd2 Hp2) as (nd3 & Hp3 & E3).
  exists nd3. split; [done|congruence].
Qed.

Lemma keeps_ret {A} (a : A) : keeps_payloads (D:=D) (ret a).
Proof. intros s a' s' [= _ <-]. apply same_payloads_refl. Qed.

Lemma keeps_raise {A} : keeps_payloads (D:=D) (A:=A) raise.
Proof. intros s a s' [=]. Qed.

Lemma keeps_bind {A B} (c : M D A) (k : A -> M D B) :
  keeps_payloads c -> (forall a, keeps_payloads (k a)) ->
  keeps_payloads (bind c k).
Proof.
  intros Hc Hk s b s' Hrun. unfold bind in Hrun.
  destruct (c s) as [[a s1]|] eqn:Hcs; [|done].
  eapply same_payloads_trans; [by eapply Hc|by eapply Hk].
Qed.

Lemma keeps_if {A} (b : bool) (c1 c2 : M D A) :
  keeps_payloads c1 -> keeps_payloads c2 ->
  keeps_payloads (if b then c1 else c2).
Proof. by destruct b. Qed.

Lemma keeps_deref r : keeps_payloads (D:=D) (deref r).
Proof.
  intros s a s' Hrun. unfold deref in Hrun.
  destruct r as [p|]; [|done]. destruct (objs s !! p); [|done].
  injection Hrun as _ <-. apply same_payloads_refl.
Qed.

Lemma keeps_get_Next r : keeps_payloads (D:=D) (get_Next r).
Proof. apply keeps_bind; [apply keeps_deref|intros; apply keeps_ret]. Qed.

Lemma keeps_get_Prev r : keeps_payloads (D:=D) (get_Prev r).
Proof. apply keeps_bind; [apply keeps_deref|intros; apply keeps_ret]. Qed.

Lemma keeps_get_Data r : keeps_payloads (D:=D) (get_Data r).
Proof. apply keeps_bind; [apply keeps_deref|intros; apply keeps_ret]. Qed.

Lemma keeps_get_Head : keeps_payloads (D:=D) get_Head.
Proof. intros s a s' [= _ <-]. apply same_payloads_refl. Qed.

Lemma keeps_get_Tail : keeps_payloads (D:=D) get_Tail.
Proof. intros s a s' [= _ <-]. apply same_payloads_refl. Qed.

Lemma keeps_set_Head v : keeps_payloads (D:=D) (set_Head v).
Proof. intros s a s' [= _ <-]. intros p nd Hp. simpl. eauto. Qed.

Lemma keeps_set_Tail v : keeps_payloads (D:=D) (set_Tail v).
Proof. intros s a s' [= _ <-]. intros p nd Hp. simpl. eauto. Qed.

Lemma keeps_set_Next r v : keeps_payloads (D:=D) (set_Next r v).
Proof.
  intros s a s' Hrun. unfold set_Next, bind, deref, store_node in Hrun.
  destruct r as [q|]; [|done]. destruct (objs s !! q) as [nq|] eqn:Hq; [|done].
  injection Hrun as _ <-. intros p nd Hp. simpl.
  destruct (decide (q = p)) as [-> |Hne].
  - rewrite lookup_insert_eq. eexists; split; [done|]. simpl. congruence.
  - rewrite lookup_insert_ne by done. eauto.
Qed.

Lemma keeps_set_Prev r v : keeps_payloads (D:=D) (set_Prev r v).
Proof.
  intros s a s' Hrun. unfold set_Prev, bind, deref, store_node in Hrun.
  destruct r as [q|]; [|done]. destruct (objs s !! q) as [nq|] eqn:Hq; [|done].
  injection Hrun as _ <-. intros p nd Hp. simpl.
  destruct (decide (q = p)) as [-> |Hne].
  - rewrite lookup_insert_eq. eexists; split; [done|]. simpl. congruence.
  - rewrite lookup_insert_ne by done. eauto.
Qed.

Create HintDb frame.
#[local] Hint Resolve keeps_ret keeps_raise keeps_bind keeps_if
  keeps_get_Next keeps_get_Prev keeps_get_Data keeps_get_Head keeps_get_Tail
  keeps_set_Head keeps_set_Tail keeps_set_Next keeps_set_Prev : frame.

Lemma keeps_insert (newNode after : ref) :
  keeps_payloads (D:=D) (insert newNode after).
Proof. unfold insert. auto 10 with frame. Qed.

Lemma keeps_remove (oldNode : ref) : keeps_payloads (D:=D) (remove oldNode).
Proof. unfold remove. auto 10 with frame. Qed.

Lemma keeps_elements_loop fuel : forall n : ref,
  keeps_payloads (D:=D) (elements_loop fuel n).
Proof. induction fuel as [|fuel IH]; intros n; simpl; auto 10 with frame. Qed.

Lemma keeps_elements fuel : keeps_payloads (D:=D) (elements fuel).
Proof. unfold elements. auto using keeps_elements_loop with frame. Qed.

(** [elements] writes nothing at all. *)
Lemma elements_loop_pure fuel : forall (n : ref) s ds s',
  elements_loop fuel n s = Some (ds, s') -> s' = s.
Proof.
  induction fuel as [|fuel IH]; intros n s ds s' Hrun; [done|].
  simpl in Hrun. destruct n as [p|]; simpl in Hrun.
  - cbv [bind get_Data get_Next deref ret] in Hrun.
    destruct (objs s !! p) eqn:Hp; simpl in Hrun; [|done].
    rewrite Hp in Hrun; simpl in Hrun.
    destruct (elements_loop fuel _ s) as [[ds' s1]|] eqn:Hrec; [|done].
    apply IH in Hrec. injection Hrun as _ <-. done.
  - unfold ret in Hrun. injection Hrun as _ <-. done.
Qed.

(** C10.  Whatever the arguments and the store: when [insert], [remove]
    or [elements] returns, every node that existed before still exists
    and carries the payload it carried before; [elements] leaves the
    whole store as it was. *)
Theorem payloads_untouched s s' :
  (forall newNode after,
     insert newNode after s = Some (tt, s') -> same_payloads s s') /\
  (forall oldNode,
     remove oldNode s = Some (tt, s') -> same_payloads s s') /\
  (forall fuel ds,
     elements fuel s = Some (ds, s') -> same_payloads s s' /\ s' = s).
Proof.
  split; [|split].
  - intros newNode after Hrun. by eapply keeps_insert.
  - intros oldNode Hrun. by eapply keeps_remove.
  - intros fuel ds Hrun. split; [by eapply keeps_elements|].
    unfold elements, bind, get_Head in Hrun.
    by eapply elements_loop_pure.
Qed.

End Frame.

(** ** The scenario *)

(** C6.  From the empty list, inserting nodes with payloads "a" to "e"
    at the head makes [elements()] yield e, d, c, b, a; removing the head
    and then the tail leaves d, c, b; removing the node behind the head,
    whose payload is "c", leaves d, b.  Any fuel above five will do. *)
Theorem scenario_yields (fuel : nat) :
  5 < fuel ->
  fst <$> scenario fuel empty_store
  = Some (["e"; "d"; "c"; "b"; "a"], ["d"; "c"; "b"], "c", ["d"; "b"]).
Proof.
  intros Hfuel.
  do 6 (destruct fuel as [|fuel]; [lia|]).
  vm_compute. reflexivity.
Qed.

Lemma scenario_yields_witness :
  5 < 6 /\
  fst <$> scenario 6 empty_store
  = Some (["e"; "d"; "c"; "b"; "a"], ["d"; "c"; "b"], "c", ["d"; "b"]).
Proof. split; [lia|]. apply scenario_yields. lia. Defined.

(** ** The error registry *)

Section Registry.
Implicit Types (dict : gmap Z string) (code lo hi : Z).

Lemma foldr_min_le (c : Z) (cs : list Z) (x : Z) :
  x ∈ c :: cs -> (foldr Z.min c cs <= x)%Z.
Proof.
  induction cs as [|c' cs IH]; simpl.
  - intros ->%list_elem_of_singleton. lia.
  - rewrite !elem_of_cons. intros [-> |[-> |Hx]].
    + assert (foldr Z.min c cs <= c)%Z by (apply IH; left). lia.
    + lia.
    + assert (foldr Z.min c cs <= x)%Z by (apply IH; by right). lia.
Qed.

Lemma foldr_max_ge (c : Z) (cs : list Z) (x : Z) :
  x ∈ c :: cs -> (x <= foldr Z.max c cs)%Z.
Proof.
  induction cs as [|c' cs IH]; simpl.
  - intros ->%list_elem_of_singleton. lia.
  - rewrite !elem_of_cons. intros [-> |[-> |Hx]].
    + assert (c <= foldr Z.max c cs)%Z by (apply IH; left). lia.
    + lia.
    + assert (x <= foldr Z.max c cs)%Z by (apply IH; by right). lia.
Qed.

(** Every registered code lies inside the range. *)
Lemma registered_in_range dict code label lo hi :
  dict !! code = Some label -> range dict = Some (lo, hi) ->
  (lo <= code <= hi)%Z.
Proof.
  intros Hcode Hrange. unfold range in Hrange.
  assert (code ∈ (map_to_list dict).*1) as Hin.
  { apply list_elem_of_fmap. exists (code, label).
    split; [done|]. by apply elem_of_map_to_list. }
  destruct ((map_to_list dict).*1) as [|c cs]; [done|].
  injection Hrange as <- <-.
  split; [by apply foldr_min_le|by apply foldr_max_ge].
Qed.

Lemma describe_outside dict code lo hi :
  range dict = Some (lo, hi) -> (code < lo \/ hi < code)%Z ->
  describe dict code = inl (UndefinedCode code).
Proof.
  intros Hrange Hout. unfold describe.
  destruct (dict !! code) as [label|] eqn:Hcode; [|done].
  pose proof (registered_in_range _ _ _ _ _ Hcode Hrange). lia.
Qed.

(** C8.  With [lo] and [hi] the range of the [NBTerror] registry:
    [describe] of any integer below [lo] or above [hi] fails with the
    undefined-code error, and [describe] of [lo] is the warning label. *)
Theorem describe_range lo hi :
  range error_dict = Some (lo, hi) ->
  (forall code, (code < lo \/ hi < code)%Z ->
     describe error_dict code = inl (UndefinedCode code)) /\
  describe error_dict lo = inr "Warning".
Proof.
  intros Hrange. split.
  - intros code Hout. by eapply describe_outside.
  - vm_compute in Hrange. injection Hrange as <- <-.
    vm_compute. reflexivity.
Qed.

Lemma describe_range_witness :
  range error_dict = Some (1000, 1005)%Z /\
  describe error_dict 999 = inl (UndefinedCode 999) /\
  describe error_dict 1006 = inl (UndefinedCode 1006) /\
  describe error_dict 1000 = inr "Warning".
Proof.
  assert (range error_dict = Some (1000, 1005)%Z) as Hrange
    by (vm_compute; reflexivity).
  destruct (describe_range 1000 1005 Hrange) as [Hout Hlo].
  split; [exact Hrange|]. split; [apply Hout; lia|].
  split; [apply Hout; lia|exact Hlo].
Defined.

(** C9.  For a code [c] registered with label [L]: the error built from
    [c] and a detail [x] reads ["<c>: <L>; x."], and the error built from
    [c] alone reads ["<c>: <L>."]. *)
Theorem print_error_format (c : Z) (L : string) :
  error_dict !! c = Some L ->
  (forall x : string,
     print_error error_dict c (Some x)
     = inr (pretty c +:+ ": " +:+ L +:+ "; " +:+ x +:+ ".")) /\
  print_error error_dict c None = inr (pretty c +:+ ": " +:+ L +:+ ".").
Proof.
  intros Hc. unfold print_error, new_error, render, describe. rewrite Hc.
  simpl. rewrite Hc. split; [intros x|]; do 2 f_equal.
Qed.

Lemma print_error_format_witness :
  error_dict !! 1005%Z = Some "Malformed Message" /\
  print_error error_dict 1005 (Some "Mein Luftkissenfahrzeug ist voller Aale")
  = inr "1005: Malformed Message; Mein Luftkissenfahrzeug ist voller Aale." /\
  print_error error_dict 1005 None = inr "1005: Malformed Message.".
Proof.
  assert (error_dict !! 1005%Z = Some "Malformed Message") as Hc
    by (vm_compute; reflexivity).
  destruct (print_error_format 1005 "Malformed Message" Hc) as [Hx Hnone].
  split; [exact Hc|]. split; [apply Hx|exact Hnone].
Defined.

(** An unregistered code is refused, as the doctest of [NBTerror] shows
    for a missing code. *)
Example print_error_unregistered :
  print_error error_dict 7 None = inl (UndefinedCode 7).
Proof. vm_compute. reflexivity. Qed.

End Registry.

(** ** The theorems at work on the sample stores *)

Section Samples.
Local Open Scope positive_scope.

Lemma store_a_dll : dll store_a [1].
Proof. apply dll_check_sound. vm_compute. reflexivity. Qed.

Lemma store_ba_dll : dll store_ba [2; 1].
Proof. apply dll_check_sound. vm_compute. reflexivity. Qed.

Lemma store_a_by_inserts : reachable_by_inserts store_a ({[1]} ∪ ∅).
Proof.
  apply (reachi_insert
           (mkStore (<[1 := mkNode None None "a"]> ∅) dLinkedList_init)
           ∅ 1 None store_a).
  - apply (reachi_node empty_store ∅ "a" (Some 1)); [apply reachi_empty|].
    vm_compute. reflexivity.
  - apply elem_of_dom. eexists. apply lookup_insert_eq.
  - apply not_elem_of_empty.
  - intros n [=].
  - vm_compute. reflexivity.
Qed.

Lemma insert_links_witness :
  dll store_ba [2; 1] /\ (3 ∉ [2; 1]) /\
  objs store_ba !! 3 = Some (mkNode None None "c") /\
  (exists s', insert (Some 3) None store_ba = Some (tt, s') /\
              Head (self s') = Some 3 /\ dll s' [3; 2; 1]) /\
  (exists s', insert (Some 3) (Some 2) store_ba = Some (tt, s') /\
              dll s' [2; 3; 1]).
Proof.
  assert (3 ∉ [2; 1]) as Hfresh by (rewrite !elem_of_cons, elem_of_nil; lia).
  assert (objs store_ba !! 3 = Some (mkNode None None "c")) as Hx
    by (vm_compute; reflexivity).
  destruct (insert_links store_ba [2; 1] 3 _ store_ba_dll Hfresh Hx)
    as [(s1 & Hrun1 & Hhead & _ & _ & Hd1) Hafter].
  destruct (Hafter 0%nat 2 (mkNode (Some 1) None "b") eq_refl)
    as (s2 & Hrun2 & _ & _ & _ & _ & Hd2); [vm_compute; reflexivity|].
  split; [exact store_ba_dll|]. split; [exact Hfresh|]. split; [exact Hx|].
  split; [exists s1; auto|exists s2; auto].
Defined.

Lemma remove_links_witness :
  dll store_ba [2; 1] /\ 2 ∈ [2; 1] /\
  exists s', remove (Some 2) store_ba = Some (tt, s') /\
             Head (self s') = Some 1.
Proof.
  assert (2 ∈ [2; 1]) as Hin by left.
  destruct (remove_links store_ba [2; 1] 2 store_ba_dll Hin)
    as (nx & s' & Hnx & Hrun & Hhead & _).
  split; [exact store_ba_dll|]. split; [exact Hin|].
  exists s'. split; [exact Hrun|].
  vm_compute in Hnx. injection Hnx as <-. apply Hhead. reflexivity.
Defined.

Lemma reachable_ends_witness :
  reachable store_a ({[1]} ∪ ∅) /\
  (exists nd, objs store_a !! 1 = Some nd /\ Prev nd = None) /\
  (exists nd, objs store_a !! 1 = Some nd /\ Next nd = None).
Proof.
  pose proof (reachable_by_inserts_reachable _ _ store_a_by_inserts) as Hr.
  destruct (reachable_ends store_a _ Hr) as (Hhead & Htail & _).
  split; [exact Hr|]. split; [apply Hhead|apply Htail]; reflexivity.
Defined.

Lemma insert_remove_restores_witness :
  dll store_ba [2; 1] /\ 3 ∈ dom (objs store_ba) /\ (3 ∉ [2; 1]) /\
  exists s1 s2,
    insert (Some 3) (Some 2) store_ba = Some (tt, s1) /\
    remove (Some 3) s1 = Some (tt, s2) /\
    Head (self s2) = Some 2 /\ Tail (self s2) = Some 1 /\
    objs s2 !! 2 = Some (mkNode (Some 1) None "b") /\
    objs s2 !! 1 = Some (mkNode None (Some 2) "a").
Proof.
  assert (3 ∉ [2; 1]) as Hfresh by (rewrite !elem_of_cons, elem_of_nil; lia).
  assert (3 ∈ dom (objs store_ba)) as Hdom.
  { apply elem_of_dom. eexists. vm_compute. reflexivity. }
  assert (forall n, Some 2 = Some n -> n ∈ [2; 1]) as Hafter.
  { intros n [= <-]. left. }
  destruct (insert_remove_restores store_ba [2; 1] 3 (Some 2)
              store_ba_dll Hdom Hfresh Hafter)
    as (s1 & s2 & Hrun1 & Hrun2 & Hhead & Htail & Hobjs & _).
  split; [exact store_ba_dll|]. split; [exact Hdom|]. split; [exact Hfresh|].
  exists s1, s2. split; [exact Hrun1|]. split; [exact Hrun2|].
  split; [exact Hhead|]. split; [exact Htail|].
  split; (rewrite Hobjs by lia); vm_compute; reflexivity.
Defined.

Lemma elements_forward_backward_witness :
  reachable_by_inserts store_a ({[1]} ∪ ∅) /\
  elements 2 store_a = Some (["a"], store_a) /\
  backwards 2 store_a = Some (["a"], store_a).
Proof.
  destruct (elements_forward_backward store_a _ store_a_by_inserts)
    as (ds & Hfwd & _ & Hbwd & Hlen & _).
  assert (length ds < 2)%nat as Hfuel.
  { rewrite Hlen. vm_compute. lia. }
  pose proof (Hfwd 2%nat Hfuel) as H1.
  pose proof (Hbwd 2%nat Hfuel) as H2.
  assert (ds = ["a"]) as ->.
  { vm_compute in H1. by injection H1 as <-. }
  split; [exact store_a_by_inserts|]. split; [exact H1|exact H2].
Defined.

(** C7, as stated, fails: after [remove] of the head of the list
    ["b", "a"], the removed node still points at its old successor. *)
Lemma remove_clears_links_counterexample :
  ~ (forall (s s' : Store string) (xs : list loc) (x : loc),
       dll s xs -> x ∈ xs ->
       remove (Some x) s = Some (tt, s') ->
       links_cleared s' x).
Proof.
  intros Hclaim.
  assert (2 ∈ [2; 1]) as Hin by left.
  assert (remove (Some 2) store_ba = Some (tt, store_ba_less_b)) as Hrun
    by (vm_compute; reflexivity).
  destruct (Hclaim store_ba store_ba_less_b [2; 1] 2 store_ba_dll Hin Hrun)
    as (nd & Hnd & HN & _).
  vm_compute in Hnd. injection Hnd as <-. discriminate HN.
Qed.

Lemma remove_keeps_own_links_witness :
  dll store_ba [2; 1] /\ 2 ∈ [2; 1] /\
  remove (Some 2) store_ba = Some (tt, store_ba_less_b) /\
  objs store_ba_less_b !! 2 = Some (mkNode (Some 1) None "b").
Proof.
  assert (2 ∈ [2; 1]) as Hin by left.
  assert (remove (Some 2) store_ba = Some (tt, store_ba_less_b)) as Hrun
    by (vm_compute; reflexivity).
  split; [exact store_ba_dll|]. split; [exact Hin|]. split; [exact Hrun|].
  etrans; [exact (remove_keeps_own_links store_ba [2; 1] 2 store_ba_less_b
                    store_ba_dll Hin Hrun)|].
  vm_compute. reflexivity.
Defined.

Lemma payloads_untouched_witness :
  remove (Some 2) store_ba = Some (tt, store_ba_less_b) /\
  same_payloads store_ba store_ba_less_b.
Proof.
  assert (remove (Some 2) store_ba = Some (tt, store_ba_less_b)) as Hrun
    by (vm_compute; reflexivity).
  destruct (payloads_untouched store_ba store_ba_less_b) as (_ & Hremove & _).
  split; [exact Hrun|]. exact (Hremove (Some 2) Hrun).
Defined.

End Samples.

(** * Further properties of the list *)

(** ** What [elements] yields after a call *)

Section Readings.
Context {D : Type}.
Implicit Types (s : Store D) (xs : list loc) (x y : loc) (i j k : nat)
  (m : gset loc) (ds : list D).

Lemma elements_loop_mono fuel : forall (n : ref) s r fuel',
  elements_loop fuel n s = Some r -> fuel <= fuel' ->
  elements_loop fuel' n s = Some r.
Proof.
  induction fuel as [|fuel IH]; intros n s r fuel' Hrun Hle; [done|].
  destruct fuel' as [|fuel']; [lia|].
  simpl in *. destruct n as [p|]; simpl in *; [|done].
  destruct (objs s !! p) as [nd|] eqn:Hp.
  - rewrite (bind_eq _ _ _ _ _ (get_Data_eq s p nd Hp)) in Hrun.
    rewrite (bind_eq _ _ _ _ _ (get_Next_eq s p nd Hp)) in Hrun.
    rewrite (bind_eq _ _ _ _ _ (get_Data_eq s p nd Hp)).
    rewrite (bind_eq _ _ _ _ _ (get_Next_eq s p nd Hp)).
    unfold bind in Hrun |- *.
    destruct (elements_loop fuel (Next nd) s) as [r1|] eqn:Hrec; [|done].
    rewrite (IH _ _ _ fuel' Hrec) by lia. done.
  - unfold bind, get_Data, bind, deref in Hrun. by rewrite Hp in Hrun.
Qed.

(** Whatever the fuel, a reading of a well-formed list that returns has
    yielded the payloads of its nodes. *)
Lemma dll_elements_inv s xs fuel ds s0 :
  dll s xs -> elements fuel s = Some (ds, s0) ->
  ds = payloads (objs s) xs /\ s0 = s.
Proof.
  intros Hd Hrun.
  pose proof (dll_elements s xs (fuel + S (length xs)) Hd) as Hbig.
  unfold elements in Hrun, Hbig.
  rewrite (bind_eq _ _ _ _ _ (get_Head_eq s)) in Hrun.
  rewrite (bind_eq _ _ _ _ _ (get_Head_eq s)) in Hbig.
  rewrite (elements_loop_mono _ _ _ _ (fuel + S (length xs)) Hrun) in Hbig by lia.
  specialize (Hbig ltac:(lia)). by injection Hbig as -> ->.
Qed.

Lemma payloads_app (h : gmap loc (Node D)) (l1 l2 : list loc) :
  payloads h (l1 ++ l2) = (payloads h l1 ++ payloads h l2)%list.
Proof. apply omap_app. Qed.

Lemma payloads_cons_node (h : gmap loc (Node D)) x (l : list loc) nd :
  h !! x = Some nd -> payloads h (x :: l) = Data nd :: payloads h l.
Proof. intros Hx. unfold payloads. simpl. by rewrite Hx. Qed.

Lemma payloads_same s s' xs :
  same_payloads s s' -> (forall y, y ∈ xs -> is_Some (objs s !! y)) ->
  payloads (objs s') xs = payloads (objs s) xs.
Proof.
  intros Hsame Hall. unfold payloads.
  induction xs as [|y ys IH]; [done|]. simpl.
  destruct (Hall y) as [nd Hy]; [left|].
  destruct (Hsame y nd Hy) as (nd' & Hy' & Hdata).
  rewrite Hy, Hy'. simpl. rewrite Hdata. f_equal.
  apply IH. intros z Hz. apply Hall. by right.
Qed.

Lemma payloads_take s xs k :
  dll s xs -> payloads (objs s) (take k xs) = take k (payloads (objs s) xs).
Proof.
  intros Hd. assert (forall x, x ∈ xs -> is_Some (objs s !! x)) as Hall.
  { intros x. by apply dll_member. }
  clear Hd. unfold payloads. revert k.
  induction xs as [|x xs IH]; intros k; [by destruct k|].
  destruct k as [|k]; [done|]. simpl.
  destruct (Hall x) as [nd ->]; [left|]. simpl. f_equal.
  apply IH. intros y Hy. apply Hall. by right.
Qed.

Lemma payloads_drop s xs k :
  dll s xs -> payloads (objs s) (drop k xs) = drop k (payloads (objs s) xs).
Proof.
  intros Hd. assert (forall x, x ∈ xs -> is_Some (objs s !! x)) as Hall.
  { intros x. by apply dll_member. }
  clear Hd. unfold payloads. revert k.
  induction xs as [|x xs IH]; intros k; [by destruct k|].
  destruct k as [|k]; [done|]. simpl.
  destruct (Hall x) as [nd ->]; [left|]. simpl.
  apply IH. intros y Hy. apply Hall. by right.
Qed.

(** The payloads after [x] has been put in at position [k]. *)
Lemma payloads_insert_at s s' xs x nx k :
  dll s xs -> same_payloads s s' -> objs s !! x = Some nx ->
  payloads (objs s') (insert_at k x xs)
  = (take k (payloads (objs s) xs) ++ Data nx :: drop k (payloads (objs s) xs))%list.
Proof.
  intros Hd Hsame Hx.
  assert (forall ys, ys ⊆ xs -> payloads (objs s') ys = payloads (objs s) ys) as Hsub.
  { intros ys Hys. apply payloads_same; [done|].
    intros y Hy. apply (dll_member s xs); [done|by apply Hys]. }
  destruct (Hsame x nx Hx) as (nx' & Hx' & Hdata).
  unfold insert_at.
  rewrite payloads_app, (payloads_cons_node _ _ _ _ Hx'), Hdata.
  rewrite (Hsub (take k xs)) by apply subseteq_take.
  rewrite (Hsub (drop k xs)) by apply subseteq_drop.
  by rewrite payloads_take, payloads_drop.
Qed.

(** The payloads after the node at position [i] has been taken out. *)
Lemma payloads_delete s s' xs i :
  dll s xs -> same_payloads s s' ->
  payloads (objs s') (delete i xs) = delete i (payloads (objs s) xs).
Proof.
  intros Hd Hsame.
  rewrite payloads_same with (s := s); [|done|].
  - rewrite !delete_take_drop, payloads_app.
    by rewrite payloads_take, payloads_drop.
  - intros y Hy. apply (dll_member s xs); [done|].
    eapply elem_of_sublist; [exact Hy|apply sublist_delete].
Qed.

End Readings.

Section ReadingsAfterCalls.
Context {D : Type}.
Implicit Types (s : Store D) (xs : list loc) (x y : loc) (i j k : nat)
  (m : gset loc) (ds : list D).

(** [insert] behind position [k], and the reading that follows. *)
Lemma insert_at_reading s xs x nx k after :
  dll s xs -> objs s !! x = Some nx -> x ∉ xs ->
  k <= length xs -> prev_at xs k = after ->
  exists s',
    insert (Some x) after s = Some (tt, s') /\
    dll s' (insert_at k x xs) /\
    payloads (objs s') (insert_at k x xs)
    = (take k (payloads (objs s) xs)
       ++ Data nx :: drop k (payloads (objs s) xs))%list.
Proof.
  intros Hd Hx Hfresh Hk Hafter.
  destruct (insert_at_exec _ _ _ _ _ _ Hd Hx Hfresh Hk Hafter) as (s' & Hrun & _).
  exists s'. split; [done|]. split.
  - eapply insert_at_dll; eauto. apply elem_of_dom; eauto.
  - apply payloads_insert_at; [done| |done]. by eapply keeps_insert.
Qed.

(** X1.  On a well-formed list whose reading is [ds], for a node [x]
    outside it: after [insert(x)] the reading is [x]'s payload followed by
    [ds]; after [insert(x, after=n)] for the member [n] at position [i] it
    is [ds] with [x]'s payload put in right behind position [i]. *)
Theorem insert_then_elements s xs x nx fuel0 ds s0 :
  dll s xs -> x ∉ xs -> objs s !! x = Some nx ->
  elements fuel0 s = Some (ds, s0) ->
  (exists s',
     insert (Some x) None s = Some (tt, s') /\
     forall fuel, S (length ds) < fuel ->
       elements fuel s' = Some (Data nx :: ds, s'))
  /\
  (forall i n, xs !! i = Some n ->
   exists s',
     insert (Some x) (Some n) s = Some (tt, s') /\
     forall fuel, S (length ds) < fuel ->
       elements fuel s'
       = Some ((take (S i) ds ++ Data nx :: drop (S i) ds)%list, s')).
Proof.
  intros Hd Hfresh Hx Hread.
  destruct (dll_elements_inv _ _ _ _ _ Hd Hread) as [-> ->].
  rewrite (payloads_length s xs Hd). split.
  - destruct (insert_at_reading s xs x nx 0 None Hd Hx Hfresh
                (Nat.le_0_l _) eq_refl) as (s' & Hrun & Hd' & Hpay).
    exists s'. split; [done|]. intros fuel Hfuel.
    rewrite (dll_elements s' _ fuel Hd') by (rewrite insert_at_length; lia).
    rewrite Hpay. by rewrite take_0, drop_0.
  - intros i n Hi. pose proof (lookup_lt_Some _ _ _ Hi) as Hlt.
    destruct (insert_at_reading s xs x nx (S i) (Some n) Hd Hx Hfresh Hlt Hi)
      as (s' & Hrun & Hd' & Hpay).
    exists s'. split; [done|]. intros fuel Hfuel.
    rewrite (dll_elements s' _ fuel Hd') by (rewrite insert_at_length; lia).
    by rewrite Hpay.
Qed.

(** X2.  On a well-formed list whose reading is [ds]: after [remove] of
    the member at position [i] the reading is [ds] without its entry at
    position [i]. *)
Theorem remove_then_elements s xs i x fuel0 ds s0 :
  dll s xs -> xs !! i = Some x ->
  elements fuel0 s = Some (ds, s0) ->
  exists s',
    remove (Some x) s = Some (tt, s') /\
    forall fuel, length ds <= fuel ->
      elements fuel s' = Some (delete i ds, s').
Proof.
  intros Hd Hi Hread.
  destruct (dll_elements_inv _ _ _ _ _ Hd Hread) as [-> ->].
  rewrite (payloads_length s xs Hd).
  destruct (remove_at_exec _ _ _ _ Hd Hi) as (nx & s' & _ & _ & _ & Hrun & _).
  pose proof (remove_at_dll _ _ _ _ _ Hd Hi Hrun) as Hd'.
  pose proof (lookup_lt_Some _ _ _ Hi) as Hlt.
  exists s'. split; [done|]. intros fuel Hfuel.
  rewrite (dll_elements s' _ fuel Hd').
  - rewrite (payloads_delete s s' xs i Hd); [done|]. by eapply keeps_remove.
  - rewrite length_delete by eauto. lia.
Qed.

(** X3.  After any history of node creations and valid [insert] and
    [remove] calls from the empty list, with [m] the nodes inserted and
    not removed: given fuel for one more test than there are nodes,
    [elements()] returns and yields the payloads along [Next] from [Head]
    to [Tail], one for each node of [m]; the walk along [Prev] from
    [Tail] yields them reversed. *)
Theorem reachable_elements s m :
  reachable s m ->
  exists ds,
    (forall fuel, length ds < fuel -> elements fuel s = Some (ds, s)) /\
    head_to_tail s ds /\
    (forall fuel, length ds < fuel -> backwards fuel s = Some (rev ds, s)) /\
    length ds = size m.
Proof.
  intros (xs & Hd & <-)%reachable_dll.
  pose proof (payloads_length s xs Hd) as Hlen.
  exists (payloads (objs s) xs). split; [|split; [|split]].
  - intros fuel Hfuel. apply dll_elements; [done|lia].
  - by apply dll_head_to_tail.
  - intros fuel Hfuel. apply dll_backwards; [done|lia].
  - rewrite Hlen. symmetry. apply size_list_to_set, Hd.
Qed.

(** X4.  After any history, with [ds] the reading of the list:
    [lst.insert( Node( d ) )] returns, and the reading that follows is
    [d] followed by [ds]. *)
Theorem insert_new_node s m d fuel0 ds s0 :
  reachable s m ->
  elements fuel0 s = Some (ds, s0) ->
  exists s',
    (r <~ Node_init d ;; insert r None) s = Some (tt, s') /\
    forall fuel, S (length ds) < fuel ->
      elements fuel s' = Some (d :: ds, s').
Proof.
  intros Hr Hread.
  destruct (reachable_dll _ _ Hr) as (xs & Hd & _).
  destruct (dll_elements_inv _ _ _ _ _ Hd Hread) as [-> ->].
  set (x := fresh (dom (objs s))).
  set (s1 := mkStore (<[x := mkNode None None d]> (objs s)) (self s)).
  assert (Node_init d s = Some (Some x, s1)) as Hnew by done.
  pose proof (Node_init_dll _ _ _ _ _ Hd Hnew) as Hd1.
  assert (x ∉ xs) as Hfresh.
  { intros Hin. destruct (dll_member _ _ _ Hd Hin) as [nd Hnd].
    apply (is_fresh (dom (objs s))). apply elem_of_dom. eauto. }
  assert (objs s1 !! x = Some (mkNode None None d)) as Hx
    by apply lookup_insert_eq.
  destruct (insert_at_reading s1 xs x _ 0 None Hd1 Hx Hfresh
              (Nat.le_0_l _) eq_refl) as (s' & Hrun & Hd' & Hpay).
  exists s'. split.
  - by rewrite (bind_eq _ _ _ _ _ Hnew).
  - intros fuel Hfuel.
    rewrite (dll_elements s' _ fuel Hd').
    + rewrite Hpay, take_0, drop_0. simpl. do 3 f_equal.
      apply (payloads_same s s1).
      * intros p nd Hp. exists nd. split; [|done]. simpl.
        rewrite lookup_insert_ne; [done|]. intros <-.
        apply (is_fresh (dom (objs s))). apply elem_of_dom. eauto.
      * intros y Hy. by apply (dll_member s xs).
    + rewrite insert_at_length. rewrite (payloads_length s xs Hd) in Hfuel. lia.
Qed.

(** X5.  After any history, every valid call returns: [insert] of an
    existing node that is not in the list, at the head or behind a node
    of the list, and [remove] of a node of the list. *)
Theorem valid_calls_return s m :
  reachable s m ->
  (forall x after,
     x ∈ dom (objs s) -> x ∉ m -> (forall n, after = Some n -> n ∈ m) ->
     exists s', insert (Some x) after s = Some (tt, s')
                /\ reachable s' ({[x]} ∪ m)) /\
  (forall x, x ∈ m ->
     exists s', remove (Some x) s = Some (tt, s')
                /\ reachable s' (m ∖ {[x]})).
Proof.
  intros Hr. split.
  - intros x after Hx Hfresh Hafter.
    destruct (reachable_insert_returns s m x after Hr Hx Hfresh Hafter)
      as [s' Hrun].
    exists s'. split; [done|]. by eapply reach_insert.
  - intros x Hx.
    destruct (reachable_remove_returns s m x Hr Hx) as [s' Hrun].
    exists s'. split; [done|]. by eapply reach_remove.
Qed.

End ReadingsAfterCalls.

(** ** Calls that undo or repeat each other *)

Section Undo.
Context {D : Type}.
Implicit Types (s : Store D) (xs : list loc) (x y : loc) (i j k : nat)
  (m : gset loc).

Lemma store_eq s s' :
  (forall y, objs s' !! y = objs s !! y) ->
  Head (self s') = Head (self s) -> Tail (self s') = Tail (self s) ->
  s' = s.
Proof.
  destruct s as [h [hd tl]], s' as [h' [hd' tl']]. simpl.
  intros Hobjs -> ->. f_equal. by apply map_eq.
Qed.

(** The neighbours of a member are other nodes, and they exist. *)
Lemma dll_neighbours s xs i x nx :
  dll s xs -> xs !! i = Some x -> objs s !! x = Some nx ->
  (forall q, Prev nx = Some q -> q <> x /\ is_Some (objs s !! q)) /\
  (forall q, Next nx = Some q ->
     q <> x /\ Some q <> Prev nx /\ is_Some (objs s !! q)).
Proof.
  intros Hd Hi Hx.
  destruct (dll_node _ _ _ _ Hd Hi) as (nx' & Hx' & HN & HP).
  assert (nx' = nx) as -> by congruence.
  pose proof (dll_nodup _ _ Hd) as Hnd. split.
  - intros q Hq. rewrite HP in Hq.
    apply prev_at_elem in Hq as (j & -> & Hj). split.
    + intros ->. pose proof (NoDup_lookup _ _ _ _ Hnd Hj Hi). lia.
    + destruct (dll_node _ _ _ _ Hd Hj) as (nq & ? & _). eauto.
  - intros q Hq. rewrite HN in Hq. split; [|split].
    + intros ->. pose proof (NoDup_lookup _ _ _ _ Hnd Hq Hi). lia.
    + rewrite HP. intros Heq. symmetry in Heq.
      pose proof (NoDup_prev_at _ _ _ _ Hnd Hq Heq). lia.
    + destruct (dll_node _ _ _ _ Hd Hq) as (nq & ? & _). eauto.
Qed.

(** X6.  On a well-formed list and for a member [x]: [remove(x)]
    followed by [insert(x, after=x.Prev)] returns and gives back the very
    store it started from: the list and every node, [x] included. *)
Theorem remove_insert_restores s xs x :
  dll s xs -> x ∈ xs ->
  exists nx s1 s2,
    objs s !! x = Some nx /\
    remove (Some x) s = Some (tt, s1) /\
    insert (Some x) (Prev nx) s1 = Some (tt, s2) /\
    s2 = s.
Proof.
  intros Hd [i Hi]%list_elem_of_lookup_1.
  pose proof (lookup_lt_Some _ _ _ Hi) as Hlt.
  destruct (remove_at_exec _ _ _ _ Hd Hi) as
    (nx & s1 & Hnx & HN & HP & Hrun1 & Hold & Hpred & Hsucc & Hrest & Hhead & Htail).
  pose proof (remove_at_dll _ _ _ _ _ Hd Hi Hrun1) as Hd1.
  assert (x ∉ delete i xs) as Hfresh.
  { rewrite (delete_elem_of xs i x) by (done || apply Hd). tauto. }
  assert (i <= length (delete i xs)) as Hk.
  { rewrite length_delete by eauto. lia. }
  assert (prev_at (delete i xs) i = Prev nx) as Hafter.
  { rewrite prev_at_delete_le by lia. done. }
  assert (delete i xs !! i = Next nx) as Hnext.
  { rewrite list_lookup_delete_ge by lia. done. }
  destruct (insert_at_exec _ _ _ _ _ _ Hd1 Hold Hfresh Hk Hafter) as
    (s2 & Hrun2 & Hnew & Hpred2 & Hsucc2 & Hrest2 & Hhead2 & Htail2).
  rewrite Hnext in Hnew, Hsucc2, Hrest2, Htail2.
  exists nx, s1, s2. repeat (split; [done|]).
  apply store_eq.
  - intros y. destruct (decide (y = x)) as [-> |Hyx].
    { rewrite Hnew, Hnx. by destruct nx. }
    destruct (decide (Some y = Prev nx)) as [Hyp|Hyp].
    { symmetry in Hyp. pose proof Hyp as Hyp'. rewrite HP in Hyp'.
      apply prev_at_elem in Hyp' as (j & -> & Hj).
      destruct (dll_node _ _ _ _ Hd Hj) as (np & Hnp & HNp & _).
      rewrite (Hpred2 y _ Hyp (Hpred y np Hyp Hnp)). simpl.
      rewrite Hnp, <- Hi, <- HNp. by destruct np. }
    destruct (decide (Some y = Next nx)) as [Hyn|Hyn].
    { symmetry in Hyn. pose proof Hyn as Hyn'. rewrite HN in Hyn'.
      destruct (dll_node _ _ _ _ Hd Hyn') as (nn & Hnn & _ & HPn).
      rewrite (Hsucc2 y _ Hyn (Hsucc y nn Hyn Hnn)). simpl.
      simpl in HPn. rewrite Hnn, <- Hi, <- HPn. by destruct nn. }
    rewrite Hrest2 by done. by apply Hrest.
  - rewrite Hhead2, Hhead. destruct (Prev nx) as [p|] eqn:Ep; simpl; [done|].
    destruct i as [|j]; simpl in HP.
    + by rewrite (dll_head _ _ Hd), head_lookup.
    + symmetry in HP. apply lookup_ge_None_1 in HP. lia.
  - rewrite Htail2, Htail. destruct (Next nx) as [n|] eqn:En; simpl; [done|].
    symmetry. apply (dll_tail_position s xs i x Hd Hi). by rewrite <- HN.
Qed.

(** X7.  On a well-formed list and for a member [x]: a second
    [remove(x)] right after the first returns and changes nothing. *)
Theorem remove_twice s xs x s1 :
  dll s xs -> x ∈ xs ->
  remove (Some x) s = Some (tt, s1) ->
  remove (Some x) s1 = Some (tt, s1).
Proof.
  intros Hd [i Hi]%list_elem_of_lookup_1 Hrun.
  destruct (remove_at_exec _ _ _ _ Hd Hi) as
    (nx & s1' & Hnx & HN & HP & Hrun1 & Hold & Hpred & Hsucc & Hrest & Hhead & Htail).
  rewrite Hrun in Hrun1. injection Hrun1 as <-.
  destruct (dll_neighbours _ _ _ _ _ Hd Hi Hnx) as [Hp Hn].
  destruct (remove_exec s1 x nx Hold) as
    (s2 & Hrun2 & Hold2 & Hpred2 & Hsucc2 & Hrest2 & Hhead2 & Htail2).
  - intros q Hq. destruct (Hp q Hq) as [Hqx [nq Hnq]].
    split; [done|]. rewrite (Hpred q nq Hq Hnq). eauto.
  - intros q Hq. destruct (Hn q Hq) as (Hqx & Hqp & [nq Hnq]).
    split; [done|]. split; [done|]. rewrite (Hsucc q nq Hq Hnq). eauto.
  - rewrite Hrun2. do 2 f_equal. apply store_eq.
    + intros y. destruct (decide (y = x)) as [-> |Hyx]; [congruence|].
      destruct (decide (Some y = Prev nx)) as [Hyp|Hyp].
      { symmetry in Hyp. destruct (Hp y Hyp) as [_ [nq Hnq]].
        rewrite (Hpred2 y _ Hyp (Hpred y nq Hyp Hnq)).
        by rewrite (Hpred y nq Hyp Hnq). }
      destruct (decide (Some y = Next nx)) as [Hyn|Hyn].
      { symmetry in Hyn. destruct (Hn y Hyn) as (_ & _ & [nq Hnq]).
        rewrite (Hsucc2 y _ Hyn (Hsucc y nq Hyn Hnq)).
        by rewrite (Hsucc y nq Hyn Hnq). }
      by apply Hrest2.
    + rewrite Hhead2, Hhead. by destruct (Prev nx).
    + rewrite Htail2, Htail. by destruct (Next nx).
Qed.

(** X8.  Whatever the list holds: [remove] of a node whose links are
    both [None], such as a node that was created and never inserted,
    returns, changes no node and sets [Head] and [Tail] to [None]; the
    next reading yields nothing. *)
Theorem remove_unlinked_empties s x nx :
  objs s !! x = Some nx -> Next nx = None -> Prev nx = None ->
  remove (Some x) s = Some (tt, mkStore (objs s) (mkList None None)) /\
  forall fuel, 0 < fuel ->
    elements fuel (mkStore (objs s) (mkList None None))
    = Some ([], mkStore (objs s) (mkList None None)).
Proof.
  intros Hx HN HP. split.
  - destruct (remove_exec s x nx Hx) as
      (s' & Hrun & Hold & _ & _ & Hrest & Hhead & Htail).
    + intros q Hq. congruence.
    + intros q Hq. congruence.
    + rewrite Hrun. do 2 f_equal. apply store_eq; simpl.
      * intros y. destruct (decide (y = x)) as [-> |Hyx].
        -- congruence.
        -- apply Hrest; [done|by rewrite HP|by rewrite HN].
      * rewrite Hhead, HP, HN. done.
      * rewrite Htail, HP, HN. done.
  - intros fuel Hfuel. destruct fuel as [|fuel]; [lia|]. done.
Qed.

End Undo.

(** ** The generator, value by value *)

Section Generator.
Context {D : Type}.
Implicit Types (s : Store D) (xs : list loc) (x y : loc) (i j k : nat)
  (m : gset loc).

Lemma elements_take_loop_from s xs k : forall i,
  dll s xs ->
  elements_take_loop k (xs !! i) s
  = Some (payloads (objs s) (take k (drop i xs)), s).
Proof.
  induction k as [|k IH]; intros i Hd; [done|].
  destruct (xs !! i) as [x|] eqn:Hi.
  - destruct (dll_node _ _ _ _ Hd Hi) as (nd & Hx & HN & _).
    cbn [elements_take_loop is_none]. do 2 step. rewrite HN.
    erewrite bind_eq by (apply IH; done). unfold ret.
    rewrite (drop_S _ _ _ Hi). cbn [take].
    by rewrite (payloads_cons_node _ _ _ _ Hx).
  - simpl. apply lookup_ge_None_1 in Hi.
    by rewrite drop_ge by lia.
Qed.

(** X9.  On a well-formed list whose reading is [ds]: the first [k]
    values of [elements()] are the first [k] entries of [ds], all of
    [ds] when it has no more than [k], and producing them changes
    nothing. *)
Theorem elements_take_prefix s xs k fuel0 ds s0 :
  dll s xs -> elements fuel0 s = Some (ds, s0) ->
  elements_take k s = Some (take k ds, s).
Proof.
  intros Hd Hread.
  destruct (dll_elements_inv _ _ _ _ _ Hd Hread) as [-> ->].
  unfold elements_take. step.
  rewrite (dll_head _ _ Hd), head_lookup.
  rewrite (elements_take_loop_from s xs k 0 Hd), drop_0.
  by rewrite payloads_take.
Qed.

Lemma ring_never_ends s xs i fuel : forall j,
  ring s xs i -> j <= i -> elements_loop fuel (xs !! j) s = None.
Proof.
  induction fuel as [|fuel IH]; intros j Hring Hj; [done|].
  destruct (Hring j Hj) as (y & nd & j' & Hy & Hnd & Hj' & HN).
  rewrite Hy. cbn [elements_loop is_none]. do 2 step. rewrite HN.
  unfold bind. by rewrite IH.
Qed.

Lemma ring_keeps_yielding s xs i k : forall j,
  ring s xs i -> j <= i ->
  exists ds, elements_take_loop k (xs !! j) s = Some (ds, s) /\ length ds = k.
Proof.
  induction k as [|k IH]; intros j Hring Hj.
  - exists []. done.
  - destruct (Hring j Hj) as (y & nd & j' & Hy & Hnd & Hj' & HN).
    destruct (IH j' Hring Hj') as (ds & Hrec & Hlen).
    exists (Data nd :: ds). split; [|by rewrite <- Hlen].
    rewrite Hy. cbn [elements_take_loop is_none]. do 2 step. rewrite HN.
    by rewrite (bind_eq _ _ _ _ _ Hrec).
Qed.

(** [insert] at the head of a node that is in the list already. *)
Lemma insert_member_ring s xs i x :
  dll s xs -> xs !! i = Some x ->
  exists s', insert (Some x) None s = Some (tt, s') /\
             Head (self s') = Some x /\ ring s' xs i.
Proof.
  intros Hd Hi.
  destruct (dll_node _ _ _ _ Hd Hi) as (nx & Hx & HN & HP).
  pose proof (dll_head _ _ Hd) as Hh. rewrite head_lookup in Hh.
  destruct i as [|i].
  - (* the head itself *)
    rewrite Hi in Hh.
    eexists. split; [|split].
    + unfold insert; simpl. repeat (step; rewrite ?Hh; simpl). reflexivity.
    + done.
    + intros j Hj. assert (j = 0) as -> by lia.
      exists x. eexists. exists 0. split; [done|]. split.
      * simpl. apply lookup_insert_eq.
      * split; [lia|]. simpl. by rewrite Hi.
  - (* a node further down *)
    assert (is_Some (xs !! 0)) as [c Hc].
    { apply lookup_lt_is_Some. apply lookup_lt_Some in Hi. lia. }
    destruct (dll_node _ _ _ _ Hd Hc) as (nc & Hnc & HNc & _).
    pose proof (dll_nodup _ _ Hd) as Hnd.
    assert (c <> x) as Hcx.
    { intros ->. pose proof (NoDup_lookup _ _ _ _ Hnd Hc Hi). lia. }
    destruct (insert_exec s x nx None (Some c) Hx) as
      (s' & Hrun & Hnew & _ & Hsucc & Hrest & Hhead & _).
    + intros _. by rewrite Hh, Hc.
    + intros a [=].
    + intros c' [= <-]. split; [done|]. split; [done|]. eauto.
    + exists s'. split; [done|]. split; [done|].
      intros j Hj.
      destruct (decide (j = S i)) as [-> |Hne].
      { exists x. eexists. exists 0. split; [done|]. split; [exact Hnew|].
        split; [lia|]. simpl. by rewrite Hc. }
      destruct j as [|j].
      { exists c. eexists. exists 1. split; [done|].
        split; [by apply Hsucc|]. split; [lia|]. simpl. done. }
      assert (is_Some (xs !! S j)) as [y Hy].
      { apply lookup_lt_is_Some. apply lookup_lt_Some in Hi. lia. }
      destruct (dll_node _ _ _ _ Hd Hy) as (ny & Hny & HNy & _).
      exists y, ny, (S (S j)). split; [done|]. split.
      * rewrite Hrest; [done| |done|].
        -- intros ->. pose proof (NoDup_lookup _ _ _ _ Hnd Hy Hi). lia.
        -- intros [= ->]. pose proof (NoDup_lookup _ _ _ _ Hnd Hy Hc). lia.
      * split; [lia|done].
Qed.

(** X10.  On a well-formed list: [insert(x)] of a node [x] that is in
    the list already returns, and closes the chain into a ring through
    [x].  From then on [elements()] never finishes: whatever the fuel the
    loop is still running when it runs out, and a consumer that asks for
    [k] values gets [k] values, for every [k]. *)
Theorem insert_member_never_ends s xs x :
  dll s xs -> x ∈ xs ->
  exists s',
    insert (Some x) None s = Some (tt, s') /\
    (forall fuel, elements fuel s' = None) /\
    (forall k, exists ds, elements_take k s' = Some (ds, s') /\ length ds = k).
Proof.
  intros Hd [i Hi]%list_elem_of_lookup_1.
  destruct (insert_member_ring s xs i x Hd Hi) as (s' & Hrun & Hhead & Hring).
  exists s'. split; [done|]. split.
  - intros fuel. unfold elements. step. rewrite Hhead, <- Hi.
    by apply (ring_never_ends s' xs i).
  - intros k. unfold elements_take. step. rewrite Hhead, <- Hi.
    by apply (ring_keeps_yielding s' xs i).
Qed.

(** X11.  After any history, for nodes [a] and [b] of the list: [a.Next]
    is [b] exactly when [b.Prev] is [a]; and the links of a node of the
    list lead to nodes of the list only. *)
Theorem reachable_links s m a b na nb :
  reachable s m -> a ∈ m -> b ∈ m ->
  objs s !! a = Some na -> objs s !! b = Some nb ->
  (Next na = Some b <-> Prev nb = Some a) /\
  (forall c, Next na = Some c -> c ∈ m) /\
  (forall c, Prev na = Some c -> c ∈ m).
Proof.
  intros (xs & Hd & <-)%reachable_dll Ha Hb Hna Hnb.
  rewrite elem_of_list_to_set in Ha, Hb.
  apply list_elem_of_lookup_1 in Ha as [i Hi].
  apply list_elem_of_lookup_1 in Hb as [j Hj].
  pose proof (dll_nodup _ _ Hd) as Hnd.
  destruct (dll_node _ _ _ _ Hd Hi) as (na' & Hna' & HNa & HPa).
  destruct (dll_node _ _ _ _ Hd Hj) as (nb' & Hnb' & _ & HPb).
  assert (na' = na) as -> by congruence.
  assert (nb' = nb) as -> by congruence.
  split; [|split].
  - rewrite HNa, HPb. split.
    + intros Hn. pose proof (NoDup_lookup _ _ _ _ Hnd Hj Hn) as ->. done.
    + intros Hp. pose proof (NoDup_prev_at _ _ _ _ Hnd Hi Hp) as ->. done.
  - intros c Hc. rewrite HNa in Hc. rewrite elem_of_list_to_set.
    by eapply list_elem_of_lookup_2.
  - intros c Hc. rewrite HPa in Hc. rewrite elem_of_list_to_set.
    apply prev_at_elem in Hc as (j' & _ & Hj').
    by eapply list_elem_of_lookup_2.
Qed.

End Generator.

(** ** The registered codes *)

(** X12.  The codes of [NBTerror.error_dict] are the integers from 1000
    to 1005 and no others. *)
Theorem error_dict_codes (code : Z) :
  is_Some (error_dict !! code) <-> (1000 <= code <= 1005)%Z.
Proof.
  split.
  - intros [label Hl]. unfold error_dict in Hl.
    apply elem_of_list_to_map_2 in Hl.
    rewrite !elem_of_cons, elem_of_nil in Hl.
    destruct Hl as [Hl|[Hl|[Hl|[Hl|[Hl|[Hl|[]]]]]]];
      injection Hl as -> _; lia.
  - intros Hc.
    assert (code = 1000 \/ code = 1001 \/ code = 1002 \/
            code = 1003 \/ code = 1004 \/ code = 1005)%Z
      as [-> |[-> |[-> |[-> |[-> | ->]]]]] by lia;
      vm_compute; eauto.
Qed.

(** ** The further properties at work on the sample stores *)

Section MoreSamples.
Local Open Scope positive_scope.

Lemma store_ba_reachable : reachable store_ba ({[2]} ∪ ({[1]} ∪ ∅)).
Proof.
  pose proof (reachable_by_inserts_reachable _ _ store_a_by_inserts) as Ha.
  apply (reach_node
           (mkStore (<[1 := mkNode None (Some 2) "a"]>
                       (<[2 := mkNode (Some 1) None "b"]> ∅))
                    (mkList (Some 2) (Some 1)))
           _ "c" (Some 3)); [|vm_compute; reflexivity].
  apply (reach_insert
           (mkStore (<[2 := mkNode None None "b"]> (objs store_a)) (self store_a))
           _ 2 None).
  - apply (reach_node store_a _ "b" (Some 2)); [exact Ha|].
    vm_compute. reflexivity.
  - apply elem_of_dom. eexists. apply lookup_insert_eq.
  - rewrite elem_of_union, elem_of_singleton. intros [?|[]%not_elem_of_empty].
    lia.
  - intros n [=].
  - vm_compute. reflexivity.
Qed.

Lemma store_ba_reading : elements 3 store_ba = Some (["b"; "a"], store_ba).
Proof. vm_compute. reflexivity. Qed.

Lemma insert_then_elements_witness :
  dll store_ba [2; 1] /\ (3 ∉ [2; 1]) /\
  elements 3 store_ba = Some (["b"; "a"], store_ba) /\
  exists s', insert (Some 3) (Some 2) store_ba = Some (tt, s') /\
             elements 4 s' = Some (["b"; "c"; "a"], s').
Proof.
  assert (3 ∉ [2; 1]) as Hfresh by (rewrite !elem_of_cons, elem_of_nil; lia).
  assert (objs store_ba !! 3 = Some (mkNode None None "c")) as Hx
    by (vm_compute; reflexivity).
  destruct (insert_then_elements store_ba [2; 1] 3 _ 3%nat _ _
              store_ba_dll Hfresh Hx store_ba_reading) as [_ Hafter].
  destruct (Hafter 0%nat 2 eq_refl) as (s' & Hrun & Hread).
  split; [exact store_ba_dll|]. split; [exact Hfresh|].
  split; [exact store_ba_reading|].
  exists s'. split; [exact Hrun|]. apply Hread. simpl. lia.
Defined.

Lemma remove_then_elements_witness :
  dll store_ba [2; 1] /\
  elements 3 store_ba = Some (["b"; "a"], store_ba) /\
  exists s', remove (Some 2) store_ba = Some (tt, s') /\
             elements 2 s' = Some (["a"], s').
Proof.
  destruct (remove_then_elements store_ba [2; 1] 0%nat 2 3%nat _ _
              store_ba_dll eq_refl store_ba_reading) as (s' & Hrun & Hread).
  split; [exact store_ba_dll|]. split; [exact store_ba_reading|].
  exists s'. split; [exact Hrun|]. apply Hread. simpl. lia.
Defined.

Lemma reachable_elements_witness :
  reachable store_ba ({[2]} ∪ ({[1]} ∪ ∅)) /\
  elements 3 store_ba = Some (["b"; "a"], store_ba) /\
  backwards 3 store_ba = Some (["a"; "b"], store_ba).
Proof.
  destruct (reachable_elements store_ba _ store_ba_reachable)
    as (ds & Hfwd & _ & Hbwd & Hlen).
  assert (length ds < 3)%nat as Hfuel.
  { rewrite Hlen. vm_compute. lia. }
  pose proof (Hfwd 3%nat Hfuel) as H1.
  pose proof (Hbwd 3%nat Hfuel) as H2.
  assert (ds = ["b"; "a"]) as ->.
  { vm_compute in H1. by injection H1 as <-. }
  split; [exact store_ba_reachable|]. split; [exact H1|exact H2].
Defined.

Lemma insert_new_node_witness :
  reachable store_ba ({[2]} ∪ ({[1]} ∪ ∅)) /\
  elements 3 store_ba = Some (["b"; "a"], store_ba) /\
  exists s', (r <~ Node_init "z" ;; insert r None) store_ba = Some (tt, s') /\
             elements 4 s' = Some (["z"; "b"; "a"], s').
Proof.
  destruct (insert_new_node store_ba _ "z" 3%nat _ _
              store_ba_reachable store_ba_reading) as (s' & Hrun & Hread).
  split; [exact store_ba_reachable|]. split; [exact store_ba_reading|].
  exists s'. split; [exact Hrun|]. apply Hread. simpl. lia.
Defined.

Lemma valid_calls_return_witness :
  reachable store_ba ({[2]} ∪ ({[1]} ∪ ∅)) /\
  (exists s', insert (Some 3) (Some 1) store_ba = Some (tt, s')) /\
  (exists s', remove (Some 1) store_ba = Some (tt, s')).
Proof.
  destruct (valid_calls_return store_ba _ store_ba_reachable)
    as [Hinsert Hremove].
  split; [exact store_ba_reachable|]. split.
  - destruct (Hinsert 3 (Some 1)) as (s' & Hrun & _).
    + apply elem_of_dom. eexists. vm_compute. reflexivity.
    + rewrite !elem_of_union, !elem_of_singleton.
      intros [?|[?|[]%not_elem_of_empty]]; lia.
    + intros n [= <-]. rewrite !elem_of_union, !elem_of_singleton. auto.
    + eauto.
  - destruct (Hremove 1) as (s' & Hrun & _).
    + rewrite !elem_of_union, !elem_of_singleton. auto.
    + eauto.
Defined.

Lemma remove_insert_restores_witness :
  dll store_ba [2; 1] /\ 1 ∈ [2; 1] /\
  exists s1, remove (Some 1) store_ba = Some (tt, s1) /\
             insert (Some 1) (Some 2) s1 = Some (tt, store_ba).
Proof.
  assert (1 ∈ [2; 1]) as Hin by (right; left).
  destruct (remove_insert_restores store_ba [2; 1] 1 store_ba_dll Hin)
    as (nx & s1 & s2 & Hnx & Hrun1 & Hrun2 & ->).
  split; [exact store_ba_dll|]. split; [exact Hin|].
  exists s1. split; [exact Hrun1|].
  vm_compute in Hnx. injection Hnx as <-. exact Hrun2.
Defined.

Lemma remove_twice_witness :
  dll store_ba [2; 1] /\ 2 ∈ [2; 1] /\
  remove (Some 2) store_ba = Some (tt, store_ba_less_b) /\
  remove (Some 2) store_ba_less_b = Some (tt, store_ba_less_b).
Proof.
  assert (2 ∈ [2; 1]) as Hin by left.
  assert (remove (Some 2) store_ba = Some (tt, store_ba_less_b)) as Hrun
    by (vm_compute; reflexivity).
  split; [exact store_ba_dll|]. split; [exact Hin|]. split; [exact Hrun|].
  exact (remove_twice store_ba [2; 1] 2 store_ba_less_b store_ba_dll Hin Hrun).
Defined.

Lemma remove_unlinked_empties_witness :
  objs store_ba !! 3 = Some (mkNode None None "c") /\
  remove (Some 3) store_ba
  = Some (tt, mkStore (objs store_ba) (mkList None None)).
Proof.
  assert (objs store_ba !! 3 = Some (mkNode None None "c")) as Hx
    by (vm_compute; reflexivity).
  split; [exact Hx|].
  exact (proj1 (remove_unlinked_empties store_ba 3 _ Hx eq_refl eq_refl)).
Defined.

Lemma elements_take_prefix_witness :
  dll store_ba [2; 1] /\
  elements 3 store_ba = Some (["b"; "a"], store_ba) /\
  elements_take 1 store_ba = Some (["b"], store_ba).
Proof.
  split; [exact store_ba_dll|]. split; [exact store_ba_reading|].
  exact (elements_take_prefix store_ba [2; 1] 1 3 _ _
           store_ba_dll store_ba_reading).
Defined.

Lemma insert_member_never_ends_witness :
  dll store_ba [2; 1] /\ 1 ∈ [2; 1] /\
  exists s', insert (Some 1) None store_ba = Some (tt, s') /\
             elements 100 s' = None /\
             exists ds, elements_take 7 s' = Some (ds, s') /\ length ds = 7%nat.
Proof.
  assert (1 ∈ [2; 1]) as Hin by (right; left).
  destruct (insert_member_never_ends store_ba [2; 1] 1 store_ba_dll Hin)
    as (s' & Hrun & Hloop & Htake).
  split; [exact store_ba_dll|]. split; [exact Hin|].
  exists s'. split; [exact Hrun|]. split; [apply Hloop|apply Htake].
Defined.

Lemma reachable_links_witness :
  reachable store_ba ({[2]} ∪ ({[1]} ∪ ∅)) /\
  (Next (mkNode (Some 1) None "b") = Some 1
   <-> Prev (mkNode None (Some 2) "a") = Some 2).
Proof.
  split; [exact store_ba_reachable|].
  refine (proj1 (reachable_links store_ba _ 2 1 _ _ store_ba_reachable _ _ _ _)).
  - rewrite !elem_of_union, !elem_of_singleton. auto.
  - rewrite !elem_of_union, !elem_of_singleton. auto.
  - vm_compute. reflexivity.
  - vm_compute. reflexivity.
Defined.

Lemma error_dict_codes_witness :
  (1000 <= 1003 <= 1005)%Z /\ is_Some (error_dict !! 1003%Z).
Proof.
  assert (1000 <= 1003 <= 1005)%Z as Hc by lia.
  split; [exact Hc|]. exact (proj2 (error_dict_codes 1003) Hc).
Defined.

End MoreSamples.
